(** * Verification of the ledger engine and the request handler of [nb]

    Shallow embedding of [src/src/blockchain.rs] (blocks, the ledger,
    proof of work, chain validation), of the chain-replacement and
    request-serving parts of [src/src/node.rs], and of the hashing the
    ledger relies on: SHA-256 over the bytes of a string
    ([crypto::sha2::Sha256]) and the [serde_json] text of a block. *)

From Stdlib Require Import ZArith NArith List Bool String Ascii Lia
  Permutation PrimInt63.
Import ListNotations.
Open Scope list_scope.

(** ** SHA-256 ([input_str] then [result_str]).

    32-bit words are held in primitive 63-bit integers and every sum,
    shift and complement is masked back to 32 bits, so that the proof of
    work fixtures below can be evaluated. *)
Module Sha256.
Local Open Scope uint63_scope.
Definition mask32 : int := 4294967295.
Definition add32 (x y : int) : int := land (add x y) mask32.
Definition rotr (x n : int) : int := land (lor (lsr x n) (lsl x (sub 32 n))) mask32.
Definition ch (x y z : int) : int := lxor (land x y) (land (lxor x mask32) z).
Definition maj (x y z : int) : int := lxor (lxor (land x y) (land x z)) (land y z).
Definition bsig0 (x : int) : int := lxor (lxor (rotr x 2) (rotr x 13)) (rotr x 22).
Definition bsig1 (x : int) : int := lxor (lxor (rotr x 6) (rotr x 11)) (rotr x 25).
Definition ssig0 (x : int) : int := lxor (lxor (rotr x 7) (rotr x 18)) (lsr x 3).
Definition ssig1 (x : int) : int := lxor (lxor (rotr x 17) (rotr x 19)) (lsr x 10).
(** The 64 round constants, eight per row. *)
Definition K : list int :=
  List.concat
   [[0x428a2f98; 0x71374491; 0xb5c0fbcf; 0xe9b5dba5; 0x3956c25b; 0x59f111f1; 0x923f82a4; 0xab1c5ed5];
    [0xd807aa98; 0x12835b01; 0x243185be; 0x550c7dc3; 0x72be5d74; 0x80deb1fe; 0x9bdc06a7; 0xc19bf174];
    [0xe49b69c1; 0xefbe4786; 0x0fc19dc6; 0x240ca1cc; 0x2de92c6f; 0x4a7484aa; 0x5cb0a9dc; 0x76f988da];
    [0x983e5152; 0xa831c66d; 0xb00327c8; 0xbf597fc7; 0xc6e00bf3; 0xd5a79147; 0x06ca6351; 0x14292967];
    [0x27b70a85; 0x2e1b2138; 0x4d2c6dfc; 0x53380d13; 0x650a7354; 0x766a0abb; 0x81c2c92e; 0x92722c85];
    [0xa2bfe8a1; 0xa81a664b; 0xc24b8b70; 0xc76c51a3; 0xd192e819; 0xd6990624; 0xf40e3585; 0x106aa070];
    [0x19a4c116; 0x1e376c08; 0x2748774c; 0x34b0bcb5; 0x391c0cb3; 0x4ed8aa4a; 0x5b9cca4f; 0x682e6ff3];
    [0x748f82ee; 0x78a5636f; 0x84c87814; 0x8cc70208; 0x90befffa; 0xa4506ceb; 0xbef9a3f7; 0xc67178f2]].
Definition H0 : list int :=
  [0x6a09e667; 0xbb67ae85; 0x3c6ef372; 0xa54ff53a;
   0x510e527f; 0x9b05688c; 0x1f83d9ab; 0x5be0cd19].
Record regs := Regs { ra : int; rb : int; rc : int; rd : int; re : int; rf : int; rg : int; rh : int }.
Definition round (s : regs) (k w : int) : regs :=
  let t1 := add32 (add32 (add32 (add32 (rh s) (bsig1 (re s))) (ch (re s) (rf s) (rg s))) k) w in
  let t2 := add32 (bsig0 (ra s)) (maj (ra s) (rb s) (rc s)) in
  Regs (add32 t1 t2) (ra s) (rb s) (rc s) (add32 (rd s) t1) (re s) (rf s) (rg s).
Definition next_word (win : list int) : int :=
  match win with
  | w0 :: w1 :: _ :: _ :: _ :: _ :: _ :: _ :: _ :: w9 :: _ :: _ :: _ :: _ :: w14 :: _ :: _ =>
      add32 (add32 (add32 (ssig1 w14) w9) (ssig0 w1)) w0
  | _ => 0
  end.
Fixpoint rounds (ks : list int) (win : list int) (t : nat) (s : regs) : regs :=
  match ks with
  | [] => s
  | k :: ks' =>
      match t with
      | S t' => rounds ks' win t' (round s k (nth (16 - t) win 0))
      | O => let w := next_word win in rounds ks' (tl win ++ [w]) O (round s k w)
      end
  end.
Definition compress (h : list int) (block : list int) : list int :=
  match h with
  | [a; b; c; d; e; f; g; hh] =>
      let s := rounds K block 16 (Regs a b c d e f g hh) in
      [add32 a (ra s); add32 b (rb s); add32 c (rc s); add32 d (rd s);
       add32 e (re s); add32 f (rf s); add32 g (rg s); add32 hh (rh s)]
  | _ => h
  end.
Fixpoint words_of_bytes (bs : list int) : list int :=
  match bs with
  | b0 :: b1 :: b2 :: b3 :: rest =>
      lor (lor (lsl b0 24) (lsl b1 16)) (lor (lsl b2 8) b3) :: words_of_bytes rest
  | _ => []
  end.
Fixpoint be_bytes (n : nat) (x : int) : list int :=
  match n with
  | O => []
  | S n' => be_bytes n' (lsr x 8) ++ [land x 255]
  end.
Definition pad (msg : list int) : list int :=
  let len := List.length msg in
  let zeros := ((119 - (len mod 64)) mod 64)%nat in
  msg ++ [128] ++ repeat 0 zeros ++ be_bytes 8 (lsl (fold_left (fun n _ => add n 1) msg 0) 3).
Fixpoint chunks (fuel : nat) (ws : list int) : list (list int) :=
  match fuel with
  | O => []
  | S f => match ws with [] => [] | _ => firstn 16 ws :: chunks f (skipn 16 ws) end
  end.
Definition digest (msg : list int) : list int :=
  let ws := words_of_bytes (pad msg) in
  fold_left compress (chunks (List.length ws) ws) H0.
Definition hex_digit (d : int) : ascii :=
  if eqb d 0 then "0"%char else if eqb d 1 then "1"%char else if eqb d 2 then "2"%char else if eqb d 3 then "3"%char else if eqb d 4 then "4"%char else if eqb d 5 then "5"%char else if eqb d 6 then "6"%char else if eqb d 7 then "7"%char else if eqb d 8 then "8"%char else if eqb d 9 then "9"%char else if eqb d 10 then "a"%char else if eqb d 11 then "b"%char else if eqb d 12 then "c"%char else if eqb d 13 then "d"%char else if eqb d 14 then "e"%char else "f"%char.
Fixpoint word_hex (n : nat) (w : int) (acc : string) : string :=
  match n with
  | O => acc
  | S n' => word_hex n' (lsr w 4) (String (hex_digit (land w 15)) acc)
  end.
Definition result_str (ws : list int) : string :=
  fold_right (fun w acc => word_hex 8 w acc) EmptyString ws.
Definition bit (b : bool) (v : int) : int := if b then v else 0.
Definition byte_of_ascii (c : ascii) : int :=
  match c with
  | Ascii b0 b1 b2 b3 b4 b5 b6 b7 =>
      lor (lor (lor (bit b0 1) (bit b1 2)) (lor (bit b2 4) (bit b3 8)))
          (lor (lor (bit b4 16) (bit b5 32)) (lor (bit b6 64) (bit b7 128)))
  end.
Definition bytes_of_string (s : string) : list int := map byte_of_ascii (list_ascii_of_string s).
Definition hash_str (s : string) : string := result_str (digest (bytes_of_string s)).
End Sha256.

(** ** Decimal text of an unsigned integer ([format!("{}", n)], [itoa]). *)
Definition dec_digit (d : N) : ascii := ascii_of_N (48 + d).

Fixpoint dec_aux (fuel : nat) (n : N) (acc : string) : string :=
  match fuel with
  | O => acc
  | S f =>
      let acc' := String (dec_digit (n mod 10)) acc in
      if (n <? 10)%N then acc' else dec_aux f (n / 10)%N acc'
  end.

(** Forty digits cover every [u128]. *)
Definition to_dec (n : N) : string := dec_aux 40 n EmptyString.

(** ** Proof of work ([Blockchain::valid_proof], [Blockchain::proof_of_work]) *)

(** [&hasher.result_str()[0..4] == "0000"] for the digest of
    [format!("{}{}", last_proof, proof)]. *)
Definition valid_proof (last_proof proof : N) : bool :=
  String.eqb (substring 0 4 (Sha256.hash_str (to_dec last_proof ++ to_dec proof)))
             "0000".

(** The loop [while !valid_proof(last_proof, proof) { proof += 1 }].
    The loop has no bound of its own; [fuel] bounds the number of
    increments and [None] means the fuel ran out before the loop ended. *)
Fixpoint pow_from (fuel : nat) (last_proof proof : N) : option N :=
  if valid_proof last_proof proof then Some proof
  else match fuel with
       | O => None
       | S f => pow_from f last_proof (proof + 1)%N
       end.

(** [let mut proof = 0; while ...; proof] *)
Definition proof_of_work (fuel : nat) (last_proof : N) : option N :=
  pow_from fuel last_proof 0%N.

(** ** Data model ([Transaction], [Block], [Blockchain]) *)

(** [amount] is an [i64]; [id] is the UUID text. *)
Record Transaction := mkTransaction {
  id : string;
  sender : string;
  recipient : string;
  amount : Z
}.

(** [index], [proof]: [u64]; [timestamp]: [u128] (milliseconds). *)
Record Block := mkBlock {
  index : N;
  timestamp : N;
  proof : N;
  transactions : list Transaction;
  previous_hash : string
}.

(** [blocks] is non-empty (comment of the struct). *)
Record Blockchain := mkBlockchain {
  current_transactions : list Transaction;
  blocks : list Block
}.

Definition get_id (t : Transaction) : string := id t.
Definition get_index (b : Block) : N := index b.

(** ** [serde_json::to_string] of a block *)
Module Json.

Definition quote : string := String (ascii_of_nat 34) EmptyString.

Definition hex_lower (d : nat) : ascii :=
  if (d <? 10)%nat then ascii_of_nat (48 + d) else ascii_of_nat (87 + d).

(** Escaping of string contents: quote, backslash and the control
    characters below 0x20; every other byte is copied. *)
Definition escape_char (c : ascii) : string :=
  let n := nat_of_ascii c in
  if (n =? 34)%nat then "\" ++ quote
  else if (n =? 92)%nat then "\\"
  else if (n =? 8)%nat then "\b"
  else if (n =? 9)%nat then "\t"
  else if (n =? 10)%nat then "\n"
  else if (n =? 12)%nat then "\f"
  else if (n =? 13)%nat then "\r"
  else if (n <? 32)%nat then
    String "\" (String "u" (String "0" (String "0"
      (String (hex_lower (n / 16)) (String (hex_lower (n mod 16)) EmptyString)))))
  else String c EmptyString.

Fixpoint escape (s : string) : string :=
  match s with
  | EmptyString => EmptyString
  | String c s' => escape_char c ++ escape s'
  end.

Definition str (s : string) : string := quote ++ escape s ++ quote.

(** [,"name":] *)
Definition key (k : string) : string := quote ++ k ++ quote ++ ":".

Definition i64 (z : Z) : string :=
  if (z <? 0)%Z then "-" ++ to_dec (Z.to_N (- z)) else to_dec (Z.to_N z).

Fixpoint sep (xs : list string) : string :=
  match xs with
  | [] => EmptyString
  | [x] => x
  | x :: xs' => x ++ "," ++ sep xs'
  end.

Definition transaction (t : Transaction) : string :=
  "{" ++ key "id" ++ str (id t) ++ "," ++ key "sender" ++ str (sender t)
  ++ "," ++ key "recipient" ++ str (recipient t)
  ++ "," ++ key "amount" ++ i64 (amount t) ++ "}".

Definition block (b : Block) : string :=
  "{" ++ key "index" ++ to_dec (index b)
  ++ "," ++ key "timestamp" ++ to_dec (timestamp b)
  ++ "," ++ key "proof" ++ to_dec (proof b)
  ++ "," ++ key "transactions" ++ "[" ++ sep (map transaction (transactions b)) ++ "]"
  ++ "," ++ key "previous_hash" ++ str (previous_hash b) ++ "}".

End Json.

(** [Block::get_hash] *)
Definition get_hash (b : Block) : string := Sha256.hash_str (Json.block b).

(** [Block::get_genesis] *)
Definition genesis : Block := mkBlock 0 0 100 [] "1".

(** ** Ledger operations ([impl Blockchain])

    A call that may panic ([unwrap] on [None], an index out of bounds)
    returns an [option]; [None] is the panic. *)

(** [Blockchain::new] *)
Definition new : Blockchain := mkBlockchain [] [genesis].

(** [Blockchain::from_blocks] *)
Definition from_blocks (bs : list Block) : Blockchain := mkBlockchain [] bs.

(** [Blockchain::len] *)
Definition len (bc : Blockchain) : nat := List.length (blocks bc).

(** [Blockchain::last_block]: [self.blocks.last().unwrap()]. *)
Definition last_block (bc : Blockchain) : option Block :=
  match rev (blocks bc) with
  | [] => None
  | b :: _ => Some b
  end.

(** All transactions of all committed blocks, in chain order. *)
Definition block_transactions (bs : list Block) : list Transaction :=
  List.concat (map transactions bs).

Definition same_id (t u : Transaction) : bool := String.eqb (get_id t) (get_id u).

(** [Blockchain::add_new_transaction]: the two [for] loops that return
    [false] on an equal id, then [push]. *)
Definition add_new_transaction (bc : Blockchain) (t : Transaction) : bool * Blockchain :=
  if existsb (same_id t) (current_transactions bc) then (false, bc)
  else if existsb (same_id t) (block_transactions (blocks bc)) then (false, bc)
  else (true, mkBlockchain (current_transactions bc ++ [t]) (blocks bc)).

(** [Blockchain::create_new_block]; [now] is the value of [get_time()].
    The method returns [self.last_block()], which after the [push] is the
    block just built. *)
Definition create_new_block (bc : Blockchain) (proof : N) (previous_hash : string)
    (now : N) : Blockchain * Block :=
  let transactions := current_transactions bc in
  let block := mkBlock (N.of_nat (List.length (blocks bc))) now proof transactions
                       previous_hash in
  (mkBlockchain [] (blocks bc ++ [block]), block).

(** [v[i] = v[len - 1]] then drop the last slot. *)
Fixpoint set_nth {A} (i : nat) (x : A) (l : list A) : list A :=
  match l, i with
  | [], _ => []
  | _ :: l', O => x :: l'
  | y :: l', S i' => y :: set_nth i' x l'
  end.

(** [Vec::swap_remove(i)], only called by the loop below with [i < len]. *)
Definition swap_remove {A} (i : nat) (v : list A) : list A :=
  match rev v with
  | [] => v
  | x :: _ => removelast (set_nth i x v)
  end.

(** The [while i < self.current_transactions.len()] loop of
    [add_new_block] for one transaction id [tid]; every iteration lowers
    [len - i], so [fuel = len] is enough. *)
Fixpoint purge_loop (fuel : nat) (tid : string) (i : nat) (v : list Transaction)
    : list Transaction :=
  match fuel with
  | O => v
  | S f =>
      match nth_error v i with
      | None => v
      | Some ti =>
          if String.eqb tid (get_id ti) then purge_loop f tid i (swap_remove i v)
          else purge_loop f tid (S i) v
      end
  end.

Definition purge_one (tid : string) (v : list Transaction) : list Transaction :=
  purge_loop (List.length v) tid 0 v.

(** [for t in &block.transactions { ... }] *)
Definition purge (ts : list Transaction) (v : list Transaction) : list Transaction :=
  fold_left (fun v t => purge_one (get_id t) v) ts v.

(** [Blockchain::add_new_block] *)
Definition add_new_block (bc : Blockchain) (block : Block) : option (bool * Blockchain) :=
  match N.compare (get_index block) (N.of_nat (List.length (blocks bc))) with
  | Lt => Some (false, bc)
  | Gt => Some (false, bc)
  | Eq =>
      match last_block bc with
      | None => None
      | Some last =>
          if negb (String.eqb (get_hash last) (previous_hash block))
             || negb (valid_proof (proof last) (proof block))
          then Some (false, bc)
          else Some (true, mkBlockchain (purge (transactions block) (current_transactions bc))
                                        (blocks bc ++ [block]))
      end
  end.

(** The [for i in 1..len] loop of [Blockchain::valid_chain]. *)
Fixpoint valid_links (prev : Block) (rest : list Block) : bool :=
  match rest with
  | [] => true
  | block :: rest' =>
      if negb (String.eqb (get_hash prev) (previous_hash block)) then false
      else if negb (valid_proof (proof prev) (proof block)) then false
      else valid_links block rest'
  end.

(** [Blockchain::valid_chain]: [chain.blocks[0]] panics on an empty chain. *)
Definition valid_chain (chain : Blockchain) : option bool :=
  match blocks chain with
  | [] => None
  | prev :: rest =>
      if negb (proof prev =? 100)%N
         || negb (match transactions prev with [] => true | _ => false end)
         || negb (String.eqb (previous_hash prev) "1")
      then Some false
      else Some (valid_links prev rest)
  end.

Arguments get_hash : simpl never.
Arguments valid_proof : simpl never.

(** ** The node ([src/src/node.rs], [src/src/message.rs]) *)

(** [std::net::SocketAddr]: address octets (4 for V4, 16 for V6) and port. *)
Record SocketAddr := mkSocketAddr { ip : list N; port : N }.

Definition addr_eqb (a b : SocketAddr) : bool :=
  ((fix eql (xs ys : list N) : bool :=
      match xs, ys with
      | [], [] => true
      | x :: xs', y :: ys' => (x =? y)%N && eql xs' ys'
      | _, _ => false
      end) (ip a) (ip b)) && (port a =? port b)%N.

Module PeerInfo.
(** [struct PeerInfo { id, address }] with its derived [PartialEq]. *)
Record t := mk { id : string; address : SocketAddr }.
Definition eqb (p q : t) : bool := String.eqb (id p) (id q) && addr_eqb (address p) (address q).
End PeerInfo.

Inductive Request :=
| Hello (p : PeerInfo.t)
| HowAreYou (p : PeerInfo.t)
| NewTransaction (p : PeerInfo.t) (t : Transaction)
| NewBlock (p : PeerInfo.t) (b : Block)
| NewPeer (p : PeerInfo.t) (q : PeerInfo.t).

Inductive Response :=
| Ack (p : PeerInfo.t)
| MyBlocks (p : PeerInfo.t) (bs : list Block).

(** [Request::get_sender_peer_info] *)
Definition get_sender_peer_info (r : Request) : PeerInfo.t :=
  match r with
  | Hello p | HowAreYou p | NewTransaction p _ | NewBlock p _ | NewPeer p _ => p
  end.

(** [struct Node]; [peers] is the [HashSet] (kept duplicate-free by
    [add_peer]) and [broadcasts] lists, oldest first, the
    [Event::Broadcast] requests sent on [broadcast_sender]. *)
Record Node := mkNode {
  basic_info : PeerInfo.t;
  chain : Blockchain;
  peers : list PeerInfo.t;
  broadcasts : list Request
}.

Definition set_chain (n : Node) (c : Blockchain) : Node :=
  mkNode (basic_info n) c (peers n) (broadcasts n).

Definition send_broadcast (n : Node) (r : Request) : Node :=
  mkNode (basic_info n) (chain n) (peers n) (broadcasts n ++ [r]).

(** [Node::get_blocks] *)
Definition get_blocks (n : Node) : list Block := blocks (chain n).

(** [Node::add_peer] *)
Definition add_peer (n : Node) (p : PeerInfo.t) : bool * Node :=
  if PeerInfo.eqb (basic_info n) p then (false, n)
  else if existsb (PeerInfo.eqb p) (peers n) then (false, n)
  else (true, mkNode (basic_info n) (chain n) (p :: peers n) (broadcasts n)).

(** [Node::async_broadcast_latest_block]: [last_block().to_owned()]. *)
Definition async_broadcast_latest_block (n : Node) : option Node :=
  match last_block (chain n) with
  | None => None
  | Some b => Some (send_broadcast n (NewBlock (basic_info n) b))
  end.

(** [Node::handle_incoming_transaction] *)
Definition handle_incoming_transaction (n : Node) (t : Transaction) : Node :=
  let (ok, c) := add_new_transaction (chain n) t in
  if ok then send_broadcast (set_chain n c) (NewTransaction (basic_info n) t)
  else set_chain n c.

(** [Node::handle_incoming_block] *)
Definition handle_incoming_block (n : Node) (b : Block) : option Node :=
  match add_new_block (chain n) b with
  | None => None
  | Some (true, c) => async_broadcast_latest_block (set_chain n c)
  | Some (false, c) => Some (set_chain n c)
  end.

(** [Node::handle_incoming_peer] *)
Definition handle_incoming_peer (n : Node) (p : PeerInfo.t) : Node :=
  let (ok, n') := add_peer n p in
  if ok then send_broadcast n' (NewPeer (basic_info n') p) else n'.

(** [Node::serve_request]: the new node state and the responses written
    on the stream, in order ([serde_json::to_writer] is taken to succeed). *)
Definition serve_request (n : Node) (request : Request) : option (Node * list Response) :=
  let (_, n) := add_peer n (get_sender_peer_info request) in
  let my_info := basic_info n in
  let response_and_node :=
    match request with
    | Hello _ => Some (n, Some (Ack my_info))
    | HowAreYou _ => Some (n, Some (MyBlocks (basic_info n) (get_blocks n)))
    | NewTransaction _ t => Some (handle_incoming_transaction n t, None)
    | NewBlock _ b =>
        match handle_incoming_block n b with
        | None => None
        | Some n' => Some (n', None)
        end
    | NewPeer _ p => Some (handle_incoming_peer n p, None)
    end in
  match response_and_node with
  | None => None
  | Some (n', Some response) => Some (n', [response])
  | Some (n', None) => Some (n', [])
  end.

(** [Node::update_chain] (the [adopt] of the specification). *)
Definition update_chain (n : Node) (new_blocks : list Block) : option (bool * Node) :=
  if (List.length new_blocks <=? len (chain n))%nat then Some (false, n)
  else
    let new_chain := from_blocks new_blocks in
    match valid_chain new_chain with
    | None => None
    | Some false => Some (false, n)
    | Some true =>
        let new_chain :=
          fold_left (fun c t => snd (add_new_transaction c t))
                    (current_transactions (chain n)) new_chain in
        match async_broadcast_latest_block (set_chain n new_chain) with
        | None => None
        | Some n' => Some (true, n')
        end
    end.

(** ** The rest of the node ([src/src/node.rs])

    What the code reads from the outside world (a fresh UUID, the clock,
    the bytes a peer sends back, whether a connection opens) is an
    argument of the definitions below. *)

(** [Transaction::new(sender, recipient, amount)]; [uuid] is the text of
    [Uuid::new_v4()]. *)
Definition transaction_new (uuid sender recipient : string) (amount : Z) : Transaction :=
  mkTransaction uuid sender recipient amount.

(** [Blockchain::run_pow]: [proof_of_work(self.last_block().proof)].
    [None] is the panic of [last_block] or a search that did not end
    within [fuel] steps. *)
Definition run_pow (fuel : nat) (bc : Blockchain) : option N :=
  match last_block bc with
  | None => None
  | Some b => proof_of_work fuel (proof b)
  end.

(** [Node::async_broadcast_transaction] *)
Definition async_broadcast_transaction (n : Node) (t : Transaction) : Node :=
  send_broadcast n (NewTransaction (basic_info n) t).

(** [Node::async_broadcast_peer] *)
Definition async_broadcast_peer (n : Node) (p : PeerInfo.t) : Node :=
  send_broadcast n (NewPeer (basic_info n) p).

(** [Node::mine]; [uuid] is the id drawn for the reward transaction and
    [now] the value of [get_time()] in [create_new_block]. *)
Definition mine (n : Node) (fuel : nat) (uuid : string) (now : N) : option Node :=
  match last_block (chain n) with
  | None => None
  | Some last_block =>
      match run_pow fuel (chain n) with
      | None => None
      | Some pf =>
          let last_hash := get_hash last_block in
          let bonus_trans := transaction_new uuid "0" (PeerInfo.id (basic_info n)) 1 in
          let c := snd (add_new_transaction (chain n) bonus_trans) in
          let c := fst (create_new_block c pf last_hash now) in
          async_broadcast_latest_block (set_chain n c)
      end
  end.

(** [Node::create_and_add_new_transaction] *)
Definition create_and_add_new_transaction (n : Node) (uuid sender receiver : string)
    (amount : Z) : Node :=
  let transaction := transaction_new uuid sender receiver amount in
  let (ok, c) := add_new_transaction (chain n) transaction in
  if ok then async_broadcast_transaction (set_chain n c) transaction else set_chain n c.

(** [Node::say_hello]: [Hello] is written, then [reply] is the first value
    read back ([None] when the stream ends, does not decode or the write
    fails).  The result is [Some ok] for [Ok(ok)] and [None] for an [Err]. *)
Definition say_hello (n : Node) (reply : option Response) : option bool * Node :=
  match reply with
  | Some (Ack peer_info) =>
      let n := async_broadcast_peer n peer_info in
      let (ok, n) := add_peer n peer_info in
      (Some ok, n)
  | Some (MyBlocks _ _) => (None, n)
  | None => (None, n)
  end.

(** [Node::greet_and_add_peer]; [connected] is [false] when [parse_addr]
    or [TcpStream::connect] fails. *)
Definition greet_and_add_peer (n : Node) (connected : bool) (reply : option Response)
    : bool * Node :=
  if connected then
    match say_hello n reply with
    | (Some true, n') => (true, n')
    | (_, n') => (false, n')
    end
  else (false, n).

(** [Node::resolve_conflict]: [HowAreYou] is written, then [reply] is the
    first value read back.  [Some (Some ok, _)] is [Ok(ok)],
    [Some (None, _)] an [Err]; [None] is a panic. *)
Definition resolve_conflict (n : Node) (reply : option Response)
    : option (option bool * Node) :=
  match reply with
  | Some (MyBlocks _ blocks) =>
      match update_chain n blocks with
      | None => None
      | Some (ok, n') => Some (Some ok, n')
      end
  | Some (Ack _) => Some (None, n)
  | None => Some (None, n)
  end.

(** The [for peer in peers.iter()] loop of [Node::resolve_conflicts];
    an [Err] and a failed [connect] (a [None] reply) leave [ret] alone. *)
Fixpoint resolve_loop (ret : bool) (n : Node) (ps : list PeerInfo.t)
    (reply : PeerInfo.t -> option Response) : option (bool * Node) :=
  match ps with
  | [] => Some (ret, n)
  | p :: ps' =>
      match resolve_conflict n (reply p) with
      | None => None
      | Some (Some flag, n') => resolve_loop (ret || flag) n' ps' reply
      | Some (None, n') => resolve_loop ret n' ps' reply
      end
  end.

(** [Node::resolve_conflicts]: [reply p] is what peer [p] answers; the
    list [peers] is the order the [HashSet] is walked in. *)
Definition resolve_conflicts (n : Node) (reply : PeerInfo.t -> option Response)
    : option (bool * Node) :=
  resolve_loop false n (peers n) reply.

(** What [TcpStream::connect] and the write of a request give for one peer. *)
Inductive Link := Refused | Delivered | Broken.

(** The loop of [Node::broadcast_request]: the peers [req] reaches, in
    order.  A refused connection is skipped; a failed [try_clone] or
    write returns [Err] at once and ends the loop. *)
Fixpoint broadcast_loop (req : Request) (link : PeerInfo.t -> Link) (ps : list PeerInfo.t)
    : list (PeerInfo.t * Request) :=
  match ps with
  | [] => []
  | p :: ps' =>
      match link p with
      | Refused => broadcast_loop req link ps'
      | Delivered => (p, req) :: broadcast_loop req link ps'
      | Broken => []
      end
  end.

(** [Node::broadcast_request] (it does not change the node). *)
Definition broadcast_request (n : Node) (link : PeerInfo.t -> Link) (req : Request)
    : list (PeerInfo.t * Request) :=
  broadcast_loop req link (peers n).

(** [enum Command] *)
Inductive Command :=
| NewTrans (sender receiver : string) (amount : Z)
| Display
| AddPeer (addr : string)
| DisplayPeers
| Resolve
| Mine.

(** The outside world as [serve_command] sees it. *)
Record World := mkWorld {
  w_uuid : string;                          (* [Uuid::new_v4()] *)
  w_now : N;                                (* [get_time()] *)
  w_fuel : nat;                             (* bound of the proof search *)
  w_many_addrs : string -> bool;            (* [to_socket_addrs] yields a number of
                                               addresses other than one *)
  w_connects : string -> bool;              (* [parse_addr] and [connect] succeed *)
  w_hello_reply : string -> option Response; (* answer to [Hello] at an address *)
  w_reply : PeerInfo.t -> option Response;  (* answer of a peer to [HowAreYou] *)
  w_output_ok : bool                        (* writes to stdout and stderr succeed *)
}.

(** [Node::serve_command].  [None] is a panic: the [assert_eq!(addr.len(), 1)]
    of [parse_addr] (the first step of [greet_and_add_peer]), and the
    [println!], [eprintln!] and [expect] of the printing branches when the
    write fails; [display] and [display_peers] only print. *)
Definition serve_command (n : Node) (w : World) (command : Command) : option Node :=
  match command with
  | NewTrans sender receiver amount =>
      Some (create_and_add_new_transaction n (w_uuid w) sender receiver amount)
  | Display => if w_output_ok w then Some n else None
  | AddPeer peer =>
      if w_many_addrs w peer then None
      else
        let (ok, n') := greet_and_add_peer n (w_connects w peer) (w_hello_reply w peer) in
        if ok || w_output_ok w then Some n' else None
  | DisplayPeers => if w_output_ok w then Some n else None
  | Resolve =>
      match resolve_conflicts n (w_reply w) with
      | None => None
      | Some (_, n') => if w_output_ok w then Some n' else None
      end
  | Mine => mine n (w_fuel w) (w_uuid w) (w_now w)
  end.

(** [enum Event] (the [TcpStream] of a request is left out). *)
Inductive Event :=
| ERequest (r : Request)
| EResponse (r : Response)
| EBroadcast (r : Request)
| ECommand (c : Command).

(** One turn of the loop of [Node::run]; [unimplemented!()] on a
    [Response] is a panic ([None]). *)
Definition run_step (n : Node) (w : World) (e : Event) : option Node :=
  match e with
  | ERequest r =>
      match serve_request n r with
      | None => None
      | Some (n', _) => Some n'
      end
  | EResponse _ => None
  | EBroadcast _ => Some n
  | ECommand c => serve_command n w c
  end.

(** The node [Node::run] builds, with [basic_info = me]. *)
Definition run_init (me : PeerInfo.t) : Node := mkNode me new [] [].

(** The node states [Node::run] can reach. *)
Inductive reachable : Node -> Prop :=
| reachable_init (me : PeerInfo.t) : reachable (run_init me)
| reachable_step (n : Node) (w : World) (e : Event) (n' : Node) :
    reachable n -> run_step n w e = Some n' -> reachable n'.

(** ** The command line ([handle_input_commands]) *)

(** [char::to_digit(10)] on one byte. *)
Definition to_digit (c : ascii) : option Z :=
  let v := N_of_ascii c in
  if ((48 <=? v) && (v <=? 57))%N then Some (Z.of_N (v - 48)) else None.

Definition i64_min : Z := (- 2 ^ 63)%Z.
Definition i64_max : Z := (2 ^ 63 - 1)%Z.

(** The positive loop of [i64::from_str]:
    [checked_mul(10)] then [checked_add(x)]. *)
Fixpoint parse_pos (result : Z) (digits : string) : option Z :=
  match digits with
  | EmptyString => Some result
  | String c rest =>
      match to_digit c with
      | None => None
      | Some x =>
          let r := (result * 10)%Z in
          if (i64_max <? r)%Z then None
          else let r := (r + x)%Z in
               if (i64_max <? r)%Z then None else parse_pos r rest
      end
  end.

(** The negative loop: [checked_mul(10)] then [checked_sub(x)]. *)
Fixpoint parse_neg (result : Z) (digits : string) : option Z :=
  match digits with
  | EmptyString => Some result
  | String c rest =>
      match to_digit c with
      | None => None
      | Some x =>
          let r := (result * 10)%Z in
          if (r <? i64_min)%Z then None
          else let r := (r - x)%Z in
               if (r <? i64_min)%Z then None else parse_neg r rest
      end
  end.

(** [<i64 as FromStr>::from_str]: empty text and a lone sign are errors,
    a leading [+] or [-] is read, then every byte must be a digit. *)
Definition parse_i64 (src : string) : option Z :=
  match src with
  | EmptyString => None
  | String c rest =>
      if Ascii.eqb c "+" then
        match rest with EmptyString => None | _ => parse_pos 0 rest end
      else if Ascii.eqb c "-" then
        match rest with EmptyString => None | _ => parse_neg 0 rest end
      else parse_pos 0 src
  end.

(** What one input line leads to. *)
Inductive LineOutcome :=
| LSend (c : Command)     (* [sender.send(Event::Command(c))] *)
| LError (msg : string)   (* [eprintln!], then the next line *)
| LHelp                   (* [list_commands()] *)
| LExit                   (* [break] *)
| LSkip.                  (* an empty line *)

(** The body of the loop of [handle_input_commands] after
    [input.trim().split_whitespace()]: [args] are the words of the line. *)
Definition handle_input_line (args : list string) : LineOutcome :=
  match args with
  | [] => LSkip
  | command :: _ =>
      if String.eqb command "new_trans" then
        match args with
        | _ :: sender :: receiver :: amount :: _ =>
            match parse_i64 amount with
            | Some num => LSend (NewTrans sender receiver num)
            | None => LError "illegal amount!"
            end
        | _ => LError "not enough arguments!"
        end
      else if String.eqb command "mine" then LSend Mine
      else if String.eqb command "list_blocks" then LSend Display
      else if String.eqb command "add_peer" then
        match args with
        | _ :: peer :: _ => LSend (AddPeer peer)
        | _ => LError "not enough arguments!"
        end
      else if String.eqb command "list_peers" then LSend DisplayPeers
      else if String.eqb command "resolve" then LSend Resolve
      else if String.eqb command "help" then LHelp
      else if String.eqb command "exit" then LExit
      else LError "Command not found. Type 'help' to list commands."
  end.

(** ** Properties used in the statements *)

(** Ids of the pending pool followed by those of every committed block. *)
Definition ledger_ids (bc : Blockchain) : list string :=
  map get_id (current_transactions bc ++ block_transactions (blocks bc)).

(** The ledger invariant: no transaction id appears twice across the
    pending pool and all committed blocks. *)
Definition unique_ids (bc : Blockchain) : Prop := NoDup (ledger_ids bc).

(** [t]'s id occurs in the list [ts]. *)
Definition id_in (ts : list Transaction) (t : Transaction) : bool :=
  existsb (same_id t) ts.

(** ** Auxiliary notions for the further properties *)

(** The peer set does not contain the node itself and has no duplicates. *)
Definition peers_ok (n : Node) : Prop :=
  ~ In (basic_info n) (peers n) /\ NoDup (peers n).

(** How a node may change in one turn: same identity, peers kept, chain
    not shorter, validity kept, broadcasts only appended. *)
Definition grows (n n' : Node) : Prop :=
  basic_info n' = basic_info n /\
  (peers_ok n -> peers_ok n') /\
  (forall p, In p (peers n) -> In p (peers n')) /\
  (len (chain n) <= len (chain n'))%nat /\
  (valid_chain (chain n) = Some true -> valid_chain (chain n') = Some true) /\
  exists l, broadcasts n' = broadcasts n ++ l.

Ltac grows_split := unfold grows; split; [|split; [|split; [|split; [|split]]]].

(** The value of a string of decimal digits, read after [acc]. *)
Fixpoint dec_val_from (acc : N) (s : string) : N :=
  match s with
  | EmptyString => acc
  | String c s' => dec_val_from (acc * 10 + (N_of_ascii c - 48))%N s'
  end.

(** ['0'..'9'] *)
Definition is_digit (c : ascii) : bool :=
  ((48 <=? N_of_ascii c) && (N_of_ascii c <=? 57))%N.

Fixpoint all_digits (s : string) : bool :=
  match s with
  | EmptyString => true
  | String c s' => is_digit c && all_digits s'
  end.

(** [to_dec] has fuel for the numbers below [10^40] (every [u128]). *)
Definition dec_bound : N := (10 ^ 40)%N.

(** Value of a lower-case hexadecimal digit. *)
Definition hex_val (h : ascii) : nat :=
  let n := nat_of_ascii h in if (n <? 97)%nat then n - 48 else n - 87.

(** Reads one escaped character of a JSON string back (a decoder of
    [Json.escape_char], used to show that the escaping is injective). *)
Definition unescape_one (s : string) : option (ascii * string) :=
  match s with
  | EmptyString => None
  | String c r =>
      if Ascii.eqb c "\" then
        match r with
        | String d r' =>
            let k := nat_of_ascii d in
            if (k =? 34)%nat then Some (ascii_of_nat 34, r')
            else if (k =? 92)%nat then Some ("\"%char, r')
            else if Ascii.eqb d "b" then Some (ascii_of_nat 8, r')
            else if Ascii.eqb d "t" then Some (ascii_of_nat 9, r')
            else if Ascii.eqb d "n" then Some (ascii_of_nat 10, r')
            else if Ascii.eqb d "f" then Some (ascii_of_nat 12, r')
            else if Ascii.eqb d "r" then Some (ascii_of_nat 13, r')
            else if Ascii.eqb d "u" then
              match r' with
              | String _ (String _ (String h1 (String h2 r''))) =>
                  Some (ascii_of_nat (16 * hex_val h1 + hex_val h2), r'')
              | _ => None
              end
            else None
        | EmptyString => None
        end
      else Some (c, r)
  end.

(** The amount fits its Rust type [i64]. *)
Definition tx_wf (t : Transaction) : Prop := (i64_min <= amount t <= i64_max)%Z.

(** The numbers of a block fit their Rust types ([u64], [u128]) and so
    do the amounts of its transactions. *)
Definition block_wf (b : Block) : Prop :=
  (index b < 2 ^ 64)%N /\ (timestamp b < 2 ^ 128)%N /\ (proof b < 2 ^ 64)%N /\
  Forall tx_wf (transactions b).

(** ** Sample values used by the witnesses and counterexamples *)

(** [t] does not carry the id [tid]. *)
Definition other_id (tid : string) (t : Transaction) : bool :=
  negb (String.eqb tid (get_id t)).

(** Two transactions "0" -> "1", amount 1, with ids "a" and "b". *)
Definition tx_a : Transaction := mkTransaction "a" "0" "1" 1.
Definition tx_b : Transaction := mkTransaction "b" "0" "1" 1.

(** The block a peer mines on top of [new]: index 1, the genesis hash,
    and the proof [proof_of_work] finds for 100. *)
Definition next_block : Block := mkBlock 1 0 35293 [] (get_hash genesis).

(** A one-block chain whose block has the genesis proof, transactions
    and previous hash but index 5 and time stamp 7. *)
Definition odd_genesis : Block := mkBlock 5 7 100 [] "1".

(** Re-admitting a list of transactions one by one, as [update_chain] does. *)
Definition readmit (c : Blockchain) (l : list Transaction) : Blockchain :=
  fold_left (fun c t => snd (add_new_transaction c t)) l c.

(** A node identity at 127.0.0.1:8000. *)
Definition me : PeerInfo.t := PeerInfo.mk "me" (mkSocketAddr [127; 0; 0; 1]%N 8000%N).

(** The next block, carrying transaction "a" twice. *)
Definition next_block_dup : Block := mkBlock 1 0 35293 [tx_a; tx_a] (get_hash genesis).

(** A peer at 127.0.0.1:8001. *)
Definition peer1 : PeerInfo.t := PeerInfo.mk "peer1" (mkSocketAddr [127; 0; 0; 1]%N 8001%N).

Definition node0 : Node := mkNode me new [] [].

(** A world where every connection succeeds and every [Hello] is
    answered by [peer1]. *)
Definition world0 : World :=
  mkWorld "u1" 0 1 (fun _ => false) (fun _ => true) (fun _ => Some (Ack peer1)) (fun _ => None)
    true.

(** [node0] after accepting [peer1]. *)
Definition node1 : Node := mkNode me new [peer1] [].

(** A node whose last proof is 88914, for which the proof 0 is valid. *)
Definition pow_node : Node := mkNode me (mkBlockchain [] [mkBlock 0 0 88914 [] "1"]) [] [].

(** ** Sanity checks of the embedding *)

Example sha256_abc :
  Sha256.hash_str "abc" =
  "ba7816bf8f01cfea414140de5dae2223b00361a396177a9cb410ff61f20015ad"%string.
Proof. vm_compute. reflexivity. Qed.

Example sha256_two_blocks :
  Sha256.hash_str "abcdbcdecdefdefgefghfghighijhijkijkljklmklmnlmnomnopnopq" =
  "248d6a61d20638b8e5c026930c3e6039a33ce45964ff2167f6ecedd419db06c1"%string.
Proof. vm_compute. reflexivity. Qed.

Example sha256_empty :
  Sha256.hash_str EmptyString =
  "e3b0c44298fc1c149afbf4c8996fb92427ae41e4649b934ca495991b7852b855"%string.
Proof. vm_compute. reflexivity. Qed.

Example to_dec_35293 : to_dec 35293%N = "35293"%string /\ to_dec 0%N = "0"%string.
Proof. split; reflexivity. Qed.

Example genesis_hash :
  get_hash genesis =
  "2e4f5a514b0b39153a2f4db7ef4a8ee0edb1e950c03b7d55cceaa9be35089847"%string.
Proof. vm_compute. reflexivity. Qed.

(** ** Lemmas on lists *)

Lemma filter_perm {A} (keep : A -> bool) (xs ys : list A) :
  Permutation xs ys -> Permutation (filter keep xs) (filter keep ys).
Proof.
  induction 1 as [| x l l' _ IH | x y l | l l' l'' _ IH1 _ IH2]; simpl.
  - constructor.
  - destruct (keep x); auto.
  - destruct (keep x), (keep y); auto using perm_swap.
  - eauto using Permutation_trans.
Qed.

Lemma filter_filter' {A} (f g : A -> bool) (l : list A) :
  filter f (filter g l) = filter (fun x => g x && f x) l.
Proof.
  induction l as [| x l IH]; simpl; [reflexivity|].
  destruct (g x); simpl; [destruct (f x)|]; simpl; rewrite ?IH; reflexivity.
Qed.

Lemma filter_all {A} (f : A -> bool) (l : list A) :
  Forall (fun x => f x = true) l -> filter f l = l.
Proof.
  induction 1 as [| x l Hx _ IH]; simpl; [reflexivity|].
  rewrite Hx, IH; reflexivity.
Qed.

Lemma set_nth_middle {A} (l1 l2 : list A) (y x : A) :
  set_nth (List.length l1) x (l1 ++ y :: l2) = l1 ++ x :: l2.
Proof. induction l1 as [| a l1 IH]; simpl; [reflexivity|]. now rewrite IH. Qed.

(** [swap_remove] at position [|l1|] of [l1 ++ y :: l2] keeps [l1] and
    leaves a permutation of [l2] behind it. *)
Lemma swap_remove_middle {A} (l1 l2 : list A) (y : A) :
  exists r, swap_remove (List.length l1) (l1 ++ y :: l2) = l1 ++ r /\ Permutation r l2.
Proof.
  unfold swap_remove.
  destruct (rev (l1 ++ y :: l2)) as [| x rv] eqn:Hrev.
  { apply (f_equal (@List.length A)) in Hrev.
    rewrite length_rev, length_app in Hrev; simpl in Hrev; lia. }
  assert (Hx : x = last (y :: l2) y).
  { assert (Hl : rev (rev (l1 ++ y :: l2)) = rev (x :: rv)) by now rewrite Hrev.
    rewrite rev_involutive in Hl; simpl in Hl.
    apply (f_equal (fun l => last l y)) in Hl.
    rewrite last_last in Hl.
    rewrite <- Hl. clear.
    induction l1 as [| a l1 IH]; simpl; [reflexivity|].
    rewrite IH. destruct l1; simpl; [destruct l2|]; reflexivity. }
  rewrite set_nth_middle, removelast_app by discriminate.
  destruct l2 as [| z l2].
  - exists []. simpl. split; [reflexivity | constructor].
  - exists (x :: removelast (z :: l2)). split; [reflexivity|].
    rewrite (@app_removelast_last _ (z :: l2) y) at 2 by discriminate.
    rewrite Hx.
    change (last (y :: z :: l2) y) with (last (z :: l2) y).
    apply Permutation_cons_append.
Qed.

(** ** The purge loop of [add_new_block] *)

(** Loop invariant: the scanned prefix [l1] holds no transaction with id
    [tid]; with enough fuel the loop leaves a permutation of the list
    with every [tid] transaction removed. *)
Lemma purge_loop_perm (fuel : nat) (tid : string) (l1 r : list Transaction) :
  (List.length r <= fuel)%nat ->
  Forall (fun t => other_id tid t = true) l1 ->
  Permutation (purge_loop fuel tid (List.length l1) (l1 ++ r))
              (l1 ++ filter (other_id tid) r).
Proof.
  revert l1 r; induction fuel as [| f IH]; intros l1 r Hlen Hl1.
  - destruct r; [| simpl in Hlen; lia]. simpl. reflexivity.
  - simpl. rewrite nth_error_app2, Nat.sub_diag by lia.
    destruct r as [| y r2]; simpl; [reflexivity|].
    assert (Ho : other_id tid y = negb (String.eqb tid (get_id y))) by reflexivity.
    destruct (String.eqb tid (get_id y)) eqn:Hy; rewrite Ho; simpl.
    + destruct (swap_remove_middle l1 r2 y) as (r3 & -> & Hp).
      eapply Permutation_trans.
      * apply IH; [apply Permutation_length in Hp; simpl in Hlen; lia | exact Hl1].
      * apply Permutation_app_head, filter_perm, Hp.
    + replace (S (List.length l1)) with (List.length (l1 ++ [y]))
        by (rewrite length_app; simpl; lia).
      replace (l1 ++ y :: r2) with ((l1 ++ [y]) ++ r2)
        by (rewrite <- app_assoc; reflexivity).
      replace (l1 ++ y :: filter (other_id tid) r2)
        with ((l1 ++ [y]) ++ filter (other_id tid) r2)
        by (rewrite <- app_assoc; reflexivity).
      apply IH; [simpl in Hlen; lia|].
      apply Forall_app; split; [exact Hl1|].
      constructor; [unfold other_id; now rewrite Hy | constructor].
Qed.

Lemma purge_one_perm (tid : string) (v : list Transaction) :
  Permutation (purge_one tid v) (filter (other_id tid) v).
Proof.
  unfold purge_one.
  apply (purge_loop_perm (List.length v) tid [] v); [lia | constructor].
Qed.

(** The whole [for t in &block.transactions] loop removes exactly the
    pending transactions whose id occurs in the block. *)
Lemma purge_perm (ts v : list Transaction) :
  Permutation (purge ts v) (filter (fun t => negb (id_in ts t)) v).
Proof.
  unfold purge.
  revert v; induction ts as [| u ts IH]; intros v; simpl.
  - rewrite filter_all; [reflexivity|].
    apply Forall_forall; reflexivity.
  - eapply Permutation_trans; [apply IH|].
    eapply Permutation_trans; [apply filter_perm, purge_one_perm|].
    rewrite filter_filter'.
    apply Permutation_refl'. apply filter_ext. intros t.
    unfold id_in, other_id, same_id; simpl.
    rewrite String.eqb_sym.
    destruct (String.eqb (get_id t) (get_id u)); reflexivity.
Qed.

(** ** Id lookups *)

Lemma existsb_same_id (t : Transaction) (l : list Transaction) :
  existsb (same_id t) l = true <-> In (get_id t) (map get_id l).
Proof.
  induction l as [| u l IH]; simpl; [split; [discriminate | contradiction]|].
  unfold same_id at 1.
  destruct (String.eqb_spec (get_id t) (get_id u)) as [E | NE]; simpl.
  - split; [intros _; left; congruence | reflexivity].
  - rewrite IH. split; [tauto|]. intros [E | H]; [congruence | exact H].
Qed.

Lemma existsb_same_id_false (t : Transaction) (l : list Transaction) :
  existsb (same_id t) l = false <-> ~ In (get_id t) (map get_id l).
Proof.
  rewrite <- existsb_same_id.
  destruct (existsb (same_id t) l); split; congruence.
Qed.

Lemma in_ledger_ids (bc : Blockchain) (x : string) :
  In x (ledger_ids bc) <->
  In x (map get_id (current_transactions bc)) \/
  In x (map get_id (block_transactions (blocks bc))).
Proof. unfold ledger_ids. rewrite map_app, in_app_iff. reflexivity. Qed.

Lemma in_map_get_id (x : string) (l : list Transaction) :
  In x (map get_id l) <-> exists u, In u l /\ get_id u = x.
Proof.
  rewrite in_map_iff. split; intros (u & H1 & H2); exists u; tauto.
Qed.

(** [add_new_transaction] rejects exactly the known ids. *)
Lemma add_new_transaction_known (bc : Blockchain) (t : Transaction) :
  In (get_id t) (ledger_ids bc) -> add_new_transaction bc t = (false, bc).
Proof.
  rewrite in_ledger_ids. intros H. unfold add_new_transaction.
  destruct H as [H | H]; apply existsb_same_id in H; rewrite H; [reflexivity|].
  destruct (existsb (same_id t) (current_transactions bc)); reflexivity.
Qed.

Lemma add_new_transaction_fresh (bc : Blockchain) (t : Transaction) :
  ~ In (get_id t) (ledger_ids bc) ->
  add_new_transaction bc t =
  (true, mkBlockchain (current_transactions bc ++ [t]) (blocks bc)).
Proof.
  rewrite in_ledger_ids. intros H. unfold add_new_transaction.
  assert (H1 : existsb (same_id t) (current_transactions bc) = false)
    by (apply existsb_same_id_false; tauto).
  assert (H2 : existsb (same_id t) (block_transactions (blocks bc)) = false)
    by (apply existsb_same_id_false; tauto).
  now rewrite H1, H2.
Qed.

Lemma add_new_transaction_cases (bc : Blockchain) (t : Transaction) :
  (In (get_id t) (ledger_ids bc) /\ add_new_transaction bc t = (false, bc)) \/
  (~ In (get_id t) (ledger_ids bc) /\
   add_new_transaction bc t =
   (true, mkBlockchain (current_transactions bc ++ [t]) (blocks bc))).
Proof.
  destruct (in_dec String.string_dec (get_id t) (ledger_ids bc)) as [H | H].
  - left. split; [exact H | now apply add_new_transaction_known].
  - right. split; [exact H | now apply add_new_transaction_fresh].
Qed.

(** ** Claims on the ledger engine *)

(** C7: [admit_transaction] ([add_new_transaction]) deduplicates by id
    alone: a known id (in the pool or in a committed block) is refused
    and nothing changes; a fresh id is admitted once and a second call
    with the same id is refused; two transactions that differ only in
    their ids are both admitted. *)
Theorem admit_transaction_dedup_by_id :
  (forall (bc : Blockchain) (t : Transaction),
      (exists u, (In u (current_transactions bc) \/
                  In u (block_transactions (blocks bc))) /\ get_id u = get_id t) ->
      add_new_transaction bc t = (false, bc)) /\
  (forall (bc : Blockchain) (t t' : Transaction),
      get_id t' = get_id t ->
      fst (add_new_transaction (snd (add_new_transaction bc t)) t') = false) /\
  (forall (bc : Blockchain) (t t' : Transaction),
      get_id t' = get_id t -> ~ In (get_id t) (ledger_ids bc) ->
      fst (add_new_transaction bc t) = true /\
      fst (add_new_transaction (snd (add_new_transaction bc t)) t') = false) /\
  (forall (bc : Blockchain) (t1 t2 : Transaction),
      sender t1 = sender t2 -> recipient t1 = recipient t2 -> amount t1 = amount t2 ->
      get_id t1 <> get_id t2 ->
      ~ In (get_id t1) (ledger_ids bc) -> ~ In (get_id t2) (ledger_ids bc) ->
      fst (add_new_transaction bc t1) = true /\
      fst (add_new_transaction (snd (add_new_transaction bc t1)) t2) = true).
Proof.
  assert (second : forall bc t t', get_id t' = get_id t ->
            fst (add_new_transaction (snd (add_new_transaction bc t)) t') = false).
  { intros bc t t' E.
    destruct (add_new_transaction_cases bc t) as [[Hin ->] | [_ ->]]; simpl.
    - rewrite add_new_transaction_known by congruence. reflexivity.
    - rewrite add_new_transaction_known; [reflexivity|].
      apply in_ledger_ids; left; simpl.
      rewrite map_app, in_app_iff; right; simpl; left; congruence. }
  split; [| split; [exact second | split]].
  - intros bc t (u & Hu & E). apply add_new_transaction_known.
    apply in_ledger_ids.
    destruct Hu as [Hu | Hu]; [left | right]; apply in_map_get_id; eauto.
  - intros bc t t' E Hfresh.
    split; [rewrite add_new_transaction_fresh by exact Hfresh; reflexivity|].
    now apply second.
  - intros bc t1 t2 _ _ _ Hne H1 H2.
    rewrite add_new_transaction_fresh by exact H1; simpl.
    split; [reflexivity|].
    rewrite add_new_transaction_fresh; [reflexivity|].
    rewrite in_ledger_ids; simpl. rewrite map_app, in_app_iff; simpl.
    rewrite in_ledger_ids in H2.
    intros [[H | [H | []]] | H]; [tauto | congruence | tauto].
Qed.

Lemma admit_transaction_dedup_by_id_witness :
  fst (add_new_transaction new tx_a) = true /\
  fst (add_new_transaction (snd (add_new_transaction new tx_a)) tx_a) = false /\
  fst (add_new_transaction (snd (add_new_transaction new tx_a)) tx_b) = true /\
  add_new_transaction (snd (add_new_transaction new tx_a)) tx_a
    = (false, snd (add_new_transaction new tx_a)).
Proof.
  destruct admit_transaction_dedup_by_id as (Hknown & _ & Honce & Hboth).
  destruct (Honce new tx_a tx_a eq_refl ltac:(simpl; tauto)) as [H1 H2].
  destruct (Hboth new tx_a tx_b eq_refl eq_refl eq_refl ltac:(discriminate)
              ltac:(simpl; tauto) ltac:(simpl; tauto)) as [_ H3].
  split; [exact H1 | split; [exact H2 | split; [exact H3|]]].
  apply Hknown. exists tx_a. split; [left; simpl; left; reflexivity | reflexivity].
Defined.

(** [add_new_block] on a chain whose last block is [lb]: the three
    outcomes of the index comparison. *)
Lemma add_new_block_cases (bc : Blockchain) (candidate lb : Block) :
  last_block bc = Some lb ->
  add_new_block bc candidate =
  if (get_index candidate =? N.of_nat (len bc))%N
     && String.eqb (get_hash lb) (previous_hash candidate)
     && valid_proof (proof lb) (proof candidate)
  then Some (true, mkBlockchain (purge (transactions candidate) (current_transactions bc))
                                (blocks bc ++ [candidate]))
  else Some (false, bc).
Proof.
  intros Hlast. unfold add_new_block, len.
  destruct (N.compare_spec (get_index candidate) (N.of_nat (List.length (blocks bc))))
    as [E | L | G].
  - rewrite E, N.eqb_refl, Hlast; simpl.
    destruct (String.eqb (get_hash lb) (previous_hash candidate)),
             (valid_proof (proof lb) (proof candidate)); reflexivity.
  - replace (get_index candidate =? N.of_nat (List.length (blocks bc)))%N with false
      by (symmetry; apply N.eqb_neq; lia).
    reflexivity.
  - replace (get_index candidate =? N.of_nat (List.length (blocks bc)))%N with false
      by (symmetry; apply N.eqb_neq; lia).
    reflexivity.
Qed.

(** C1: on a chain whose last block is [lb], [append_block]
    ([add_new_block]) accepts exactly the candidate whose index is the
    chain length, whose [previous_hash] is the hash of [lb] and whose
    proof passes [valid_proof] against [lb]'s; on acceptance the candidate
    is appended and the pool loses exactly the transactions whose id
    occurs in the candidate (the rest stay, in an order permuted by
    [swap_remove]); on rejection nothing changes. *)
Theorem append_block_accepts_next_valid (bc : Blockchain) (candidate lb : Block) :
  last_block bc = Some lb ->
  exists (accepted : bool) (bc' : Blockchain),
    add_new_block bc candidate = Some (accepted, bc') /\
    (accepted = true <->
       index candidate = N.of_nat (len bc) /\
       previous_hash candidate = get_hash lb /\
       valid_proof (proof lb) (proof candidate) = true) /\
    (accepted = true ->
       blocks bc' = blocks bc ++ [candidate] /\
       Permutation (current_transactions bc')
         (filter (fun t => negb (id_in (transactions candidate) t))
                 (current_transactions bc))) /\
    (accepted = false -> bc' = bc).
Proof.
  intros Hlast. rewrite (add_new_block_cases bc candidate lb Hlast).
  unfold get_index.
  destruct (N.eqb_spec (index candidate) (N.of_nat (len bc))) as [Ei | Ni];
  destruct (String.eqb_spec (get_hash lb) (previous_hash candidate)) as [Eh | Nh];
  destruct (valid_proof (proof lb) (proof candidate)) eqn:Ev; simpl;
  eexists; eexists; (split; [reflexivity|]);
  (split; [split; [intros H; try discriminate; repeat split; congruence
                  | intros (? & ? & ?); congruence] |]);
  (split; intros H; try discriminate; try reflexivity);
  (split; [reflexivity | apply purge_perm]).
Qed.

Lemma append_block_accepts_next_valid_witness :
  last_block new = Some genesis /\
  exists accepted bc',
    add_new_block new genesis = Some (accepted, bc') /\
    (accepted = true <->
       index genesis = N.of_nat (len new) /\
       previous_hash genesis = get_hash genesis /\
       valid_proof (proof genesis) (proof genesis) = true) /\
    (accepted = true ->
       blocks bc' = blocks new ++ [genesis] /\
       Permutation (current_transactions bc')
         (filter (fun t => negb (id_in (transactions genesis) t))
                 (current_transactions new))) /\
    (accepted = false -> bc' = new).
Proof.
  split; [reflexivity|].
  exact (append_block_accepts_next_valid new genesis genesis eq_refl).
Defined.

(** C6 (as stated): a candidate whose index is at most the chain length
    is always rejected and nothing changes. *)
Lemma append_block_rejects_le_len_counterexample :
  ~ (forall (bc : Blockchain) (candidate : Block),
       (index candidate <= N.of_nat (len bc))%N ->
       add_new_block bc candidate = Some (false, bc)).
Proof.
  intros H.
  assert (Hle : (index next_block <= N.of_nat (len new))%N) by (vm_compute; discriminate).
  specialize (H new next_block Hle).
  vm_compute in H. discriminate H.
Qed.

(** C6 (amended): a candidate whose index is below the chain length is
    rejected as stale and the chain and the pool are left unchanged; a
    candidate whose index equals the chain length, whose previous hash is
    the hash of the last block and whose proof is valid after the last
    block's proof is accepted and appended. *)
Theorem append_block_rejects_stale (bc : Blockchain) (candidate : Block) :
  ((index candidate < N.of_nat (len bc))%N ->
   add_new_block bc candidate = Some (false, bc)) /\
  (forall lb : Block,
     last_block bc = Some lb ->
     index candidate = N.of_nat (len bc) ->
     previous_hash candidate = get_hash lb ->
     valid_proof (proof lb) (proof candidate) = true ->
     exists bc', add_new_block bc candidate = Some (true, bc') /\
                 blocks bc' = blocks bc ++ [candidate]).
Proof.
  split.
  - intros Hlt. unfold add_new_block, get_index, len in *.
    rewrite (proj2 (N.compare_lt_iff _ _) Hlt). reflexivity.
  - intros lb Hlast Hi Hh Hv. rewrite (add_new_block_cases bc candidate lb Hlast).
    unfold get_index. rewrite Hi, N.eqb_refl, Hh, String.eqb_refl, Hv. simpl.
    eexists. split; reflexivity.
Qed.

Lemma append_block_rejects_stale_witness :
  add_new_block new genesis = Some (false, new) /\
  exists bc', add_new_block new next_block = Some (true, bc') /\
              blocks bc' = blocks new ++ [next_block].
Proof.
  split.
  - apply (proj1 (append_block_rejects_stale new genesis)). vm_compute. reflexivity.
  - apply (proj2 (append_block_rejects_stale new next_block) genesis);
      vm_compute; reflexivity.
Defined.

(** C5 (as stated): [create_block] drains the pool into a new last block
    carrying the given proof and previous hash, and that block's index
    is one more than the chain length at the time of the call. *)
Lemma create_block_index_counterexample :
  ~ (forall (bc : Blockchain) (p : N) (h : string) (now : N),
       let (bc', b) := create_new_block bc p h now in
       current_transactions bc' = [] /\ len bc' = S (len bc) /\
       last_block bc' = Some b /\ proof b = p /\ previous_hash b = h /\
       transactions b = current_transactions bc /\
       index b = (N.of_nat (len bc) + 1)%N).
Proof.
  intros H. specialize (H new 35293%N (get_hash genesis) 0%N).
  simpl in H. destruct H as (_ & _ & _ & _ & _ & _ & Hi). discriminate Hi.
Qed.

(** C5 (amended): [create_block] moves the whole pool into one new block
    appended at the end: afterwards the pool is empty, the chain is one
    block longer, its last block carries the given proof, previous hash,
    the time stamp and exactly the formerly pending transactions, and its
    index equals the chain length at the time of the call. *)
Theorem create_block_drains_pool (bc : Blockchain) (p : N) (h : string) (now : N) :
  let (bc', b) := create_new_block bc p h now in
  current_transactions bc' = [] /\ blocks bc' = blocks bc ++ [b] /\
  len bc' = S (len bc) /\ last_block bc' = Some b /\
  proof b = p /\ previous_hash b = h /\ timestamp b = now /\
  transactions b = current_transactions bc /\
  index b = N.of_nat (len bc).
Proof.
  unfold create_new_block, len, last_block; simpl.
  rewrite length_app, rev_app_distr; simpl.
  repeat split; lia.
Qed.

(** ** Chain validation *)

(** The link loop of [valid_chain] checks every adjacent pair. *)
Lemma valid_links_pairs (prev : Block) (rest : list Block) :
  valid_links prev rest = true <->
  (forall (i : nat) (b1 b2 : Block),
      nth_error (prev :: rest) i = Some b1 -> nth_error (prev :: rest) (S i) = Some b2 ->
      previous_hash b2 = get_hash b1 /\ valid_proof (proof b1) (proof b2) = true).
Proof.
  revert prev; induction rest as [| b rest IH]; intros prev; simpl.
  - split; [| reflexivity]. intros _ i b1 b2 _ H2. destruct i; discriminate.
  - destruct (String.eqb_spec (get_hash prev) (previous_hash b)) as [Eh | Nh]; simpl.
    + destruct (valid_proof (proof prev) (proof b)) eqn:Ev; simpl.
      * rewrite IH. split.
        -- intros H [| i] b1 b2 H1 H2; simpl in *.
           ++ injection H1 as <-. injection H2 as <-. split; [congruence | exact Ev].
           ++ exact (H i b1 b2 H1 H2).
        -- intros H i b1 b2 H1 H2. exact (H (S i) b1 b2 H1 H2).
      * split; [discriminate|]. intros H.
        destruct (H 0%nat prev b eq_refl eq_refl) as [_ Hv]. congruence.
    + split; [discriminate|]. intros H.
      destruct (H 0%nat prev b eq_refl eq_refl) as [Hh _]. congruence.
Qed.

(** C3 (as stated): [is_valid_chain] holds exactly when the first block
    is the genesis sentinel (all five fields) and every adjacent pair is
    hash-linked with a valid proof. *)
Lemma valid_chain_genesis_exact_counterexample :
  ~ (forall c : Blockchain,
       valid_chain c = Some true <->
       nth_error (blocks c) 0 = Some genesis /\
       (forall (i : nat) (b1 b2 : Block),
           nth_error (blocks c) i = Some b1 -> nth_error (blocks c) (S i) = Some b2 ->
           previous_hash b2 = get_hash b1 /\ valid_proof (proof b1) (proof b2) = true)).
Proof.
  intros H. destruct (H (from_blocks [odd_genesis])) as [H1 _].
  destruct (H1 eq_refl) as [Hg _]. discriminate Hg.
Qed.

(** C3 (amended): on a non-empty chain, [is_valid_chain] holds exactly
    when the first block has proof 100, no transactions and previous hash
    "1" (its index and time stamp are not looked at) and every adjacent
    pair is hash-linked with a valid proof. *)
Theorem valid_chain_iff_genesis_and_links
    (pool : list Transaction) (g : Block) (rest : list Block) :
  valid_chain (mkBlockchain pool (g :: rest)) = Some true <->
  (proof g = 100%N /\ transactions g = [] /\ previous_hash g = "1"%string) /\
  (forall (i : nat) (b1 b2 : Block),
      nth_error (g :: rest) i = Some b1 -> nth_error (g :: rest) (S i) = Some b2 ->
      previous_hash b2 = get_hash b1 /\ valid_proof (proof b1) (proof b2) = true).
Proof.
  unfold valid_chain; simpl. rewrite <- valid_links_pairs.
  destruct (N.eqb_spec (proof g) 100) as [Ep | Np]; simpl;
    [| split; [discriminate | intros [[? _] _]; contradiction]].
  destruct (transactions g) as [| t ts]; simpl;
    [| split; [discriminate | intros [[_ [? _]] _]; discriminate]].
  destruct (String.eqb_spec (previous_hash g) "1") as [Eh | Nh]; simpl.
  - split; [intros H; injection H as H; tauto | intros [_ H]; now rewrite H].
  - split; [discriminate | intros [[_ [_ ?]] _]; contradiction].
Qed.

(** ** Chain replacement ([Node::update_chain]) *)

(** Re-admitting a pool with distinct ids, none already pending, keeps
    exactly the transactions whose id is not in a committed block. *)
Lemma readmit_filter (l : list Transaction) (c : Blockchain) :
  NoDup (map get_id l) ->
  (forall t, In t l -> ~ In (get_id t) (map get_id (current_transactions c))) ->
  readmit c l =
  mkBlockchain (current_transactions c ++
                filter (fun t => negb (id_in (block_transactions (blocks c)) t)) l)
               (blocks c).
Proof.
  unfold readmit.
  revert c; induction l as [| t l IH]; intros c Hnd Hfresh; simpl.
  - rewrite app_nil_r. destruct c; reflexivity.
  - inversion Hnd as [| x xs Hnotin Hnd']; subst.
    assert (Hp : existsb (same_id t) (current_transactions c) = false)
      by (apply existsb_same_id_false, Hfresh; left; reflexivity).
    unfold add_new_transaction at 2. rewrite Hp. unfold id_in at 1.
    destruct (existsb (same_id t) (block_transactions (blocks c))) eqn:Hb; simpl.
    + apply IH; [exact Hnd'|]. intros u Hu. apply Hfresh. right; exact Hu.
    + rewrite IH; simpl.
      * rewrite <- app_assoc. reflexivity.
      * exact Hnd'.
      * intros u Hu. rewrite map_app, in_app_iff; simpl.
        intros [H | [H | []]].
        -- exact (Hfresh u (or_intror Hu) H).
        -- apply Hnotin. rewrite H. apply in_map; exact Hu.
Qed.

(** [update_chain] on a strictly longer valid chain. *)
Lemma update_chain_adopts (n : Node) (new_blocks : list Block) :
  (len (chain n) < List.length new_blocks)%nat ->
  valid_chain (from_blocks new_blocks) = Some true ->
  exists lb,
    last_block (readmit (from_blocks new_blocks) (current_transactions (chain n))) = Some lb /\
    update_chain n new_blocks =
    Some (true, send_broadcast
                  (set_chain n (readmit (from_blocks new_blocks)
                                        (current_transactions (chain n))))
                  (NewBlock (basic_info n) lb)).
Proof.
  intros Hlen Hvalid.
  assert (Hblocks : forall l c, blocks (readmit c l) = blocks c).
  { unfold readmit. induction l as [| t l IH]; intros c; simpl; [reflexivity|].
    rewrite IH. destruct (add_new_transaction_cases c t) as [[_ ->] | [_ ->]];
      reflexivity. }
  destruct (last_block (readmit (from_blocks new_blocks) (current_transactions (chain n))))
    as [lb |] eqn:Hlast.
  - exists lb. split; [reflexivity|].
    unfold update_chain.
    replace (List.length new_blocks <=? len (chain n))%nat with false
      by (symmetry; apply Nat.leb_gt; exact Hlen).
    rewrite Hvalid. fold (readmit (from_blocks new_blocks) (current_transactions (chain n))).
    unfold async_broadcast_latest_block. simpl. rewrite Hlast. reflexivity.
  - exfalso. unfold last_block in Hlast. rewrite Hblocks in Hlast. simpl in Hlast.
    destruct new_blocks as [| b bs]; [simpl in Hlen; lia|].
    simpl in Hlast. destruct (rev bs); discriminate.
Qed.

(** C2: [adopt] ([update_chain]) refuses a candidate that is not longer
    or not valid and leaves the node unchanged; otherwise it returns true,
    takes the candidate blocks as its chain, and its pool holds exactly
    the formerly pending transactions whose id occurs in no block of the
    candidate.  The pool is taken with distinct ids, as the ledger
    invariant and [add_new_transaction] keep it. *)
Theorem adopt_longer_valid_chain (n : Node) (new_blocks : list Block) :
  NoDup (map get_id (current_transactions (chain n))) ->
  (((List.length new_blocks <= len (chain n))%nat \/
    valid_chain (from_blocks new_blocks) = Some false) ->
   update_chain n new_blocks = Some (false, n)) /\
  ((len (chain n) < List.length new_blocks)%nat ->
   valid_chain (from_blocks new_blocks) = Some true ->
   exists n',
     update_chain n new_blocks = Some (true, n') /\
     blocks (chain n') = new_blocks /\
     current_transactions (chain n') =
     filter (fun t => negb (id_in (block_transactions new_blocks) t))
            (current_transactions (chain n))).
Proof.
  intros Hnd. split.
  - intros [Hle | Hinv]; unfold update_chain.
    + apply Nat.leb_le in Hle. rewrite Hle. reflexivity.
    + destruct (List.length new_blocks <=? len (chain n))%nat; [reflexivity|].
      rewrite Hinv. reflexivity.
  - intros Hlen Hvalid.
    destruct (update_chain_adopts n new_blocks Hlen Hvalid) as (lb & _ & ->).
    eexists. split; [reflexivity|].
    rewrite readmit_filter; [split; reflexivity | exact Hnd |].
    intros t _ []. 
Qed.

Lemma adopt_longer_valid_chain_witness :
  exists n',
    update_chain (mkNode me (mkBlockchain [tx_a] [genesis]) [] [])
                 [genesis; next_block] = Some (true, n') /\
    blocks (chain n') = [genesis; next_block] /\
    current_transactions (chain n') = [tx_a].
Proof.
  refine (proj2 (adopt_longer_valid_chain
                   (mkNode me (mkBlockchain [tx_a] [genesis]) [] [])
                   [genesis; next_block] _) _ _).
  - simpl. constructor; [intros [] | constructor].
  - unfold len; simpl; lia.
  - vm_compute. reflexivity.
Defined.

(** C10: [valid_chain] indexes [chain.blocks[0]] unconditionally and so
    panics on an empty chain (it never does on a non-empty one), while
    [update_chain], the only caller, rules the empty list out by its
    length guard: [update_chain] never panics. *)
Theorem valid_chain_empty_panic_unreachable :
  valid_chain (from_blocks []) = None /\
  (forall (pool : list Transaction) (g : Block) (rest : list Block),
      valid_chain (mkBlockchain pool (g :: rest)) <> None) /\
  (forall (n : Node) (new_blocks : list Block), update_chain n new_blocks <> None).
Proof.
  split; [reflexivity | split].
  - intros pool g rest. unfold valid_chain; simpl.
    destruct (_ || _ || _); discriminate.
  - intros n new_blocks.
    destruct (Nat.leb_spec (List.length new_blocks) (len (chain n))) as [Hle | Hgt].
    + unfold update_chain. apply Nat.leb_le in Hle. rewrite Hle. discriminate.
    + destruct (valid_chain (from_blocks new_blocks)) as [[|] |] eqn:Hv.
      * destruct (update_chain_adopts n new_blocks Hgt Hv) as (lb & _ & ->). discriminate.
      * unfold update_chain.
        replace (List.length new_blocks <=? len (chain n))%nat with false
          by (symmetry; apply Nat.leb_gt; exact Hgt).
        rewrite Hv. discriminate.
      * exfalso. destruct new_blocks as [| b bs]; [simpl in Hgt; lia|].
        unfold valid_chain in Hv; simpl in Hv.
        destruct (_ || _ || _); discriminate.
Qed.

(** ** The ledger invariant *)

Lemma NoDup_app_disjoint {A} (l1 l2 : list A) :
  NoDup (l1 ++ l2) -> forall x, In x l1 -> ~ In x l2.
Proof.
  induction l1 as [| a l1 IH]; simpl; [tauto|].
  intros Hnd x [<- | Hx] Hx2; inversion Hnd as [| ? ? Hnotin Hnd']; subst.
  - apply Hnotin, in_or_app. right; exact Hx2.
  - exact (IH Hnd' x Hx Hx2).
Qed.

Lemma NoDup_map_filter {A B} (key : A -> B) (keep : A -> bool) (xs : list A) :
  NoDup (map key xs) -> NoDup (map key (filter keep xs)).
Proof.
  induction xs as [| a l IH]; simpl; [tauto|].
  intros Hnd; inversion Hnd as [| ? ? Hnotin Hnd']; subst.
  destruct (keep a); simpl; [| exact (IH Hnd')].
  constructor; [| exact (IH Hnd')].
  intros Hin. apply Hnotin. apply in_map_iff in Hin as (b & Hb & Hbin).
  apply filter_In in Hbin as [Hbin _]. rewrite <- Hb. apply in_map; exact Hbin.
Qed.

Lemma block_transactions_snoc (bs : list Block) (b : Block) :
  block_transactions (bs ++ [b]) = block_transactions bs ++ transactions b.
Proof.
  unfold block_transactions. rewrite map_app, concat_app; simpl.
  rewrite app_nil_r. reflexivity.
Qed.

Lemma in_ids_filter (p : Transaction -> bool) (l : list Transaction) (x : string) :
  In x (map get_id (filter p l)) -> exists t, In t l /\ p t = true /\ get_id t = x.
Proof.
  intros Hin. apply in_map_iff in Hin as (t & <- & Ht).
  apply filter_In in Ht as [Ht Hp]. exists t; tauto.
Qed.

(** A pool filtered against a block list [ts] shares no id with it. *)
Lemma filtered_ids_disjoint (ts pool : list Transaction) (x : string) :
  In x (map get_id (filter (fun t => negb (id_in ts t)) pool)) ->
  ~ In x (map get_id ts).
Proof.
  intros Hin. apply in_ids_filter in Hin as (t & _ & Hp & <-).
  apply existsb_same_id_false. unfold id_in in Hp.
  destruct (existsb (same_id t) ts); [discriminate | reflexivity].
Qed.

Lemma admit_preserves_unique_ids (bc : Blockchain) (t : Transaction) :
  unique_ids bc -> unique_ids (snd (add_new_transaction bc t)).
Proof.
  intros Hinv.
  destruct (add_new_transaction_cases bc t) as [[_ ->] | [Hfresh ->]]; simpl; [exact Hinv|].
  unfold unique_ids, ledger_ids in *; simpl.
  rewrite <- app_assoc, !map_app in *; simpl.
  apply Permutation_NoDup with (l := get_id t :: map get_id (current_transactions bc) ++
                                       map get_id (block_transactions (blocks bc))).
  - apply Permutation_middle.
  - constructor; [| exact Hinv]. exact Hfresh.
Qed.

Lemma create_preserves_unique_ids (bc : Blockchain) (p : N) (h : string) (now : N) :
  unique_ids bc -> unique_ids (fst (create_new_block bc p h now)).
Proof.
  unfold unique_ids, ledger_ids, create_new_block; simpl.
  rewrite block_transactions_snoc; simpl.
  intros Hinv. eapply Permutation_NoDup; [| exact Hinv].
  apply Permutation_map, Permutation_app_comm.
Qed.

Lemma append_preserves_unique_ids (bc : Blockchain) (candidate : Block)
    (accepted : bool) (bc' : Blockchain) :
  unique_ids bc ->
  NoDup (map get_id (transactions candidate) ++ map get_id (block_transactions (blocks bc))) ->
  add_new_block bc candidate = Some (accepted, bc') ->
  unique_ids bc'.
Proof.
  intros Hinv Hcand Hadd.
  unfold add_new_block in Hadd.
  destruct (N.compare _ _);
    [| injection Hadd as _ <-; exact Hinv | injection Hadd as _ <-; exact Hinv].
  destruct (last_block bc) as [lb |]; [| discriminate].
  destruct (_ || _); [injection Hadd as _ <-; exact Hinv|].
  injection Hadd as _ <-.
  unfold unique_ids, ledger_ids in *; simpl.
  rewrite block_transactions_snoc, !map_app in *.
  set (P := fun t => negb (id_in (transactions candidate) t)).
  apply Permutation_NoDup with
    (l := map get_id (filter P (current_transactions bc)) ++
          (map get_id (block_transactions (blocks bc)) ++
           map get_id (transactions candidate))).
  { apply Permutation_app_tail, Permutation_map, Permutation_sym, purge_perm. }
  apply NoDup_app.
  - apply NoDup_map_filter. eapply NoDup_app_remove_r; exact Hinv.
  - eapply Permutation_NoDup; [apply Permutation_app_comm | exact Hcand].
  - intros x Hx. rewrite in_app_iff. intros [Hb | Hc].
    + apply in_ids_filter in Hx as (t & Ht & _ & <-).
      apply (NoDup_app_disjoint _ _ Hinv (get_id t)); [apply in_map; exact Ht | exact Hb].
    + exact (filtered_ids_disjoint _ _ x Hx Hc).
Qed.

Lemma adopt_preserves_unique_ids (n : Node) (new_blocks : list Block)
    (adopted : bool) (n' : Node) :
  unique_ids (chain n) ->
  NoDup (map get_id (block_transactions new_blocks)) ->
  update_chain n new_blocks = Some (adopted, n') ->
  unique_ids (chain n').
Proof.
  intros Hinv Hnb Hup.
  assert (Hpool : NoDup (map get_id (current_transactions (chain n)))).
  { unfold unique_ids, ledger_ids in Hinv. rewrite map_app in Hinv.
    eapply NoDup_app_remove_r; exact Hinv. }
  destruct (Nat.leb_spec (List.length new_blocks) (len (chain n))) as [Hle | Hgt].
  { unfold update_chain in Hup. apply Nat.leb_le in Hle. rewrite Hle in Hup.
    injection Hup as _ <-. exact Hinv. }
  destruct (valid_chain (from_blocks new_blocks)) as [[|] |] eqn:Hv.
  - destruct (update_chain_adopts n new_blocks Hgt Hv) as (lb & _ & Hup').
    rewrite Hup' in Hup. injection Hup as _ <-. simpl.
    rewrite readmit_filter; [| exact Hpool | intros t _ []].
    unfold unique_ids, ledger_ids; simpl. rewrite map_app.
    apply NoDup_app; [apply NoDup_map_filter; exact Hpool | exact Hnb |].
    intros x Hx. exact (filtered_ids_disjoint _ _ x Hx).
  - unfold update_chain in Hup.
    replace (List.length new_blocks <=? len (chain n))%nat with false in Hup
      by (symmetry; apply Nat.leb_gt; exact Hgt).
    rewrite Hv in Hup. injection Hup as _ <-. exact Hinv.
  - unfold update_chain in Hup.
    replace (List.length new_blocks <=? len (chain n))%nat with false in Hup
      by (symmetry; apply Nat.leb_gt; exact Hgt).
    rewrite Hv in Hup. discriminate.
Qed.

(** C4 (as stated): [admit_transaction], [create_block], [append_block]
    and [adopt] each preserve the ledger invariant for every argument. *)
Lemma ledger_ops_preserve_unique_ids_counterexample :
  ~ ((forall bc t, unique_ids bc -> unique_ids (snd (add_new_transaction bc t))) /\
     (forall bc p h now, unique_ids bc -> unique_ids (fst (create_new_block bc p h now))) /\
     (forall bc candidate accepted bc',
        unique_ids bc -> add_new_block bc candidate = Some (accepted, bc') ->
        unique_ids bc') /\
     (forall n new_blocks adopted n',
        unique_ids (chain n) -> update_chain n new_blocks = Some (adopted, n') ->
        unique_ids (chain n'))).
Proof.
  intros (_ & _ & Happend & _).
  assert (Hadd : add_new_block new next_block_dup =
                 Some (true, mkBlockchain [] [genesis; next_block_dup]))
    by (vm_compute; reflexivity).
  specialize (Happend new next_block_dup true _ (NoDup_nil _) Hadd).
  unfold unique_ids, ledger_ids in Happend; simpl in Happend.
  inversion Happend as [| x l Hnotin _]. apply Hnotin. left. reflexivity.
Qed.

(** C4 (amended): [admit_transaction] and [create_block] preserve the
    ledger invariant for every argument; [append_block] preserves it when
    the candidate's own transaction ids are distinct and absent from the
    committed blocks, and [adopt] when the adopted block list repeats no
    transaction id (neither operation checks this itself). *)
Theorem ledger_ops_preserve_unique_ids :
  (forall (bc : Blockchain) (t : Transaction),
      unique_ids bc -> unique_ids (snd (add_new_transaction bc t))) /\
  (forall (bc : Blockchain) (p : N) (h : string) (now : N),
      unique_ids bc -> unique_ids (fst (create_new_block bc p h now))) /\
  (forall (bc : Blockchain) (candidate : Block) (accepted : bool) (bc' : Blockchain),
      unique_ids bc ->
      NoDup (map get_id (transactions candidate) ++
             map get_id (block_transactions (blocks bc))) ->
      add_new_block bc candidate = Some (accepted, bc') ->
      unique_ids bc') /\
  (forall (n : Node) (new_blocks : list Block) (adopted : bool) (n' : Node),
      unique_ids (chain n) ->
      NoDup (map get_id (block_transactions new_blocks)) ->
      update_chain n new_blocks = Some (adopted, n') ->
      unique_ids (chain n')).
Proof.
  split; [exact admit_preserves_unique_ids|].
  split; [exact create_preserves_unique_ids|].
  split; [exact append_preserves_unique_ids | exact adopt_preserves_unique_ids].
Qed.

Lemma ledger_ops_preserve_unique_ids_witness :
  unique_ids (snd (add_new_transaction new tx_a)) /\
  unique_ids (fst (create_new_block (snd (add_new_transaction new tx_a)) 35293 "h" 0)) /\
  unique_ids (mkBlockchain [] [genesis; next_block]).
Proof.
  destruct ledger_ops_preserve_unique_ids as (Ha & Hc & Happ & _).
  assert (H0 : unique_ids new) by (vm_compute; constructor).
  split; [exact (Ha new tx_a H0)|].
  split; [exact (Hc _ 35293%N "h"%string 0%N (Ha new tx_a H0))|].
  apply (Happ new next_block true); [exact H0 | vm_compute; constructor |].
  vm_compute. reflexivity.
Defined.

(** ** Serving one request ([Node::serve_request]) *)

(** C9 (as stated): every request gets exactly one response written:
    [MyBlocks] with the full block list for [HowAreYou], [Ack] for the
    four other requests. *)
Lemma serve_request_one_response_counterexample :
  ~ (forall (n : Node) (request : Request),
       exists n',
         serve_request n request =
         Some (n', [match request with
                    | HowAreYou _ => MyBlocks (basic_info n) (blocks (chain n))
                    | _ => Ack (basic_info n)
                    end])).
Proof.
  intros H. destruct (H node0 (NewTransaction peer1 tx_a)) as (n' & Hs).
  vm_compute in Hs. discriminate Hs.
Qed.

(** C9 (amended): on a node whose chain is non-empty, the handler never
    panics; it writes [Ack] for [Hello], [MyBlocks] with the full block
    list for [HowAreYou], and nothing for [NewTransaction], [NewBlock]
    and [NewPeer] (these gossip messages are fire-and-forget: the
    broadcaster does not read a reply). *)
Theorem serve_request_responses (n : Node) (request : Request) :
  blocks (chain n) <> [] ->
  exists n',
    serve_request n request =
    Some (n', match request with
              | Hello _ => [Ack (basic_info n)]
              | HowAreYou _ => [MyBlocks (basic_info n) (blocks (chain n))]
              | NewTransaction _ _ | NewBlock _ _ | NewPeer _ _ => []
              end).
Proof.
  intros Hne.
  assert (Hlast : exists lb, last_block (chain n) = Some lb).
  { unfold last_block. destruct (rev (blocks (chain n))) as [| lb r] eqn:Hr.
    - apply (f_equal (@rev Block)) in Hr. rewrite rev_involutive in Hr. contradiction.
    - exists lb; reflexivity. }
  destruct Hlast as (lb & Hlast).
  unfold serve_request.
  destruct (add_peer n (get_sender_peer_info request)) as [ok n1] eqn:Hpeer.
  assert (Hn1 : basic_info n1 = basic_info n /\ chain n1 = chain n).
  { unfold add_peer in Hpeer.
    destruct (PeerInfo.eqb _ _); [injection Hpeer as _ <-; auto|].
    destruct (existsb _ _); injection Hpeer as _ <-; auto. }
  destruct Hn1 as [Hb Hc].
  destruct request as [p | p | p t | p b | p q]; simpl.
  - rewrite Hb. eexists; reflexivity.
  - unfold get_blocks. rewrite Hb, Hc. eexists; reflexivity.
  - eexists; reflexivity.
  - unfold handle_incoming_block. rewrite Hc.
    rewrite (add_new_block_cases (chain n) b lb Hlast).
    destruct (_ && _ && _); [| eexists; reflexivity].
    unfold async_broadcast_latest_block, last_block; simpl.
    rewrite rev_app_distr. simpl. eexists; reflexivity.
  - eexists; reflexivity.
Qed.

Lemma serve_request_responses_witness :
  exists n', serve_request node0 (HowAreYou peer1) = Some (n', [MyBlocks me [genesis]]).
Proof.
  exact (serve_request_responses node0 (HowAreYou peer1) ltac:(discriminate)).
Defined.

(** ** Proof of work *)

Lemma pow_from_least (fuel : nat) (last_proof start p : N) :
  pow_from fuel last_proof start = Some p ->
  (start <= p)%N /\ valid_proof last_proof p = true /\
  (forall q, (start <= q < p)%N -> valid_proof last_proof q = false).
Proof.
  revert start; induction fuel as [| f IH]; intros start H; simpl in H;
    destruct (valid_proof last_proof start) eqn:Hv.
  - injection H as <-. split; [lia | split; [exact Hv | intros q Hq; lia]].
  - discriminate.
  - injection H as <-. split; [lia | split; [exact Hv | intros q Hq; lia]].
  - destruct (IH (start + 1)%N H) as (Hle & Hp & Hmin).
    split; [lia | split; [exact Hp|]].
    intros q Hq. destruct (N.eq_dec q start) as [-> | Hne]; [exact Hv|].
    apply Hmin. lia.
Qed.

(** The regression fixtures of [test_pow]: 35293 for 100, then 35089
    for 35293 (every smaller candidate is evaluated and refused). *)
Lemma pow_fixture_100 : proof_of_work (N.to_nat 35293) 100 = Some 35293%N.
Proof. vm_compute. reflexivity. Qed.

Lemma pow_fixture_35293 : proof_of_work (N.to_nat 35089) 35293 = Some 35089%N.
Proof. vm_compute. reflexivity. Qed.

(** C8: whenever the search of [proof_of_work] ends, its result [p]
    passes [valid_proof] against the previous proof and is the least
    such value; the search from 100 ends at 35293 and the search from
    35293 at 35089. *)
Theorem proof_of_work_least_valid :
  (forall (fuel : nat) (last_proof p : N),
      proof_of_work fuel last_proof = Some p ->
      valid_proof last_proof p = true /\
      (forall q, (q < p)%N -> valid_proof last_proof q = false)) /\
  proof_of_work (N.to_nat 35293) 100 = Some 35293%N /\
  proof_of_work (N.to_nat 35089) 35293 = Some 35089%N.
Proof.
  split; [| exact (conj pow_fixture_100 pow_fixture_35293)].
  intros fuel last_proof p H.
  destruct (pow_from_least fuel last_proof 0 p H) as (_ & Hp & Hmin).
  split; [exact Hp|]. intros q Hq. apply Hmin. lia.
Qed.

Lemma proof_of_work_least_valid_witness :
  valid_proof 30916 2 = true /\ valid_proof 30916 1 = false /\ valid_proof 30916 0 = false.
Proof.
  destruct (proj1 proof_of_work_least_valid 2 30916%N 2%N ltac:(vm_compute; reflexivity))
    as [Hv Hmin].
  split; [exact Hv | split; apply Hmin; lia].
Defined.

(** ** Further properties of the node and of the text formats *)

Lemma addr_eqb_spec (a b : SocketAddr) : addr_eqb a b = true <-> a = b.
Proof.
  destruct a as [ia pa], b as [ib pb]; unfold addr_eqb; simpl.
  rewrite andb_true_iff, N.eqb_eq.
  assert (Hl : forall xs ys : list N,
             (fix eql (xs ys : list N) : bool :=
                match xs, ys with
                | [], [] => true
                | x :: xs', y :: ys' => (x =? y)%N && eql xs' ys'
                | _, _ => false
                end) xs ys = true <-> xs = ys).
  { induction xs as [| x xs IH]; destruct ys as [| y ys]; simpl;
      try (split; intros H; discriminate H || reflexivity).
    rewrite andb_true_iff, N.eqb_eq, IH. split; [intros [-> ->]; reflexivity|].
    intros H; injection H as -> ->; auto. }
  rewrite Hl. split; [intros [-> ->]; reflexivity | intros H; injection H as -> ->; auto].
Qed.

Lemma peer_eqb_spec (p q : PeerInfo.t) : PeerInfo.eqb p q = true <-> p = q.
Proof.
  destruct p as [ip ap], q as [iq aq]; unfold PeerInfo.eqb; simpl.
  rewrite andb_true_iff, String.eqb_eq, addr_eqb_spec.
  split; [intros [-> ->]; reflexivity | intros H; injection H as -> ->; auto].
Qed.

Lemma peer_eqb_refl (p : PeerInfo.t) : PeerInfo.eqb p p = true.
Proof. apply peer_eqb_spec; reflexivity. Qed.

Lemma add_peer_known (n : Node) (p : PeerInfo.t) :
  (basic_info n = p \/ In p (peers n)) -> add_peer n p = (false, n).
Proof.
  intros H; unfold add_peer.
  destruct (PeerInfo.eqb (basic_info n) p) eqn:E; [reflexivity|].
  destruct H as [H | H]; [subst; rewrite peer_eqb_refl in E; discriminate|].
  replace (existsb (PeerInfo.eqb p) (peers n)) with true; [reflexivity|].
  symmetry; apply existsb_exists; exists p; split; [exact H | apply peer_eqb_refl].
Qed.

Lemma add_peer_spec (n : Node) (p : PeerInfo.t) :
  (basic_info n = p \/ In p (peers n)) /\ add_peer n p = (false, n) \/
  (basic_info n <> p /\ ~ In p (peers n) /\
   add_peer n p = (true, mkNode (basic_info n) (chain n) (p :: peers n) (broadcasts n))).
Proof.
  destruct (PeerInfo.eqb (basic_info n) p) eqn:E.
  - left. apply peer_eqb_spec in E. split; [now left | apply add_peer_known; now left].
  - destruct (existsb (PeerInfo.eqb p) (peers n)) eqn:F.
    + left. apply existsb_exists in F as (q & Hq & Hpq). apply peer_eqb_spec in Hpq; subst q.
      split; [now right | apply add_peer_known; now right].
    + right. split; [intros H; subst; rewrite peer_eqb_refl in E; discriminate|].
      split; [intros H; assert (existsb (PeerInfo.eqb p) (peers n) = true) as F'
              by (apply existsb_exists; exists p; split; [exact H | apply peer_eqb_refl]);
              congruence|].
      unfold add_peer; rewrite E, F; reflexivity.
Qed.

Lemma set_chain_same (n : Node) : set_chain n (chain n) = n.
Proof. destruct n; reflexivity. Qed.

Lemma add_new_transaction_again (bc : Blockchain) (t : Transaction) :
  add_new_transaction (snd (add_new_transaction bc t)) t = (false, snd (add_new_transaction bc t)).
Proof.
  destruct (add_new_transaction_cases bc t) as [[Hin E] | [Hnin E]]; rewrite E; simpl.
  - now apply add_new_transaction_known.
  - apply add_new_transaction_known. unfold ledger_ids; simpl. apply in_map.
    apply in_or_app; left; apply in_or_app; right; now left.
Qed.

Lemma handle_incoming_transaction_again (n : Node) (t : Transaction) :
  handle_incoming_transaction (handle_incoming_transaction n t) t =
  handle_incoming_transaction n t.
Proof.
  pose proof (add_new_transaction_again (chain n) t) as H.
  destruct (add_new_transaction_cases (chain n) t) as [[Hin E] | [Hnin E]];
    rewrite E in H; simpl in H.
  - assert (Hn : handle_incoming_transaction n t = n).
    { unfold handle_incoming_transaction; rewrite E; apply set_chain_same. }
    now rewrite !Hn.
  - assert (Hn : handle_incoming_transaction n t =
                 send_broadcast (set_chain n (mkBlockchain (current_transactions (chain n) ++ [t])
                                                           (blocks (chain n))))
                                (NewTransaction (basic_info n) t)).
    { unfold handle_incoming_transaction; rewrite E; reflexivity. }
    rewrite Hn. unfold handle_incoming_transaction at 1. simpl. rewrite H.
    apply set_chain_same.
Qed.

Lemma add_new_block_false (bc c : Blockchain) (b : Block) :
  add_new_block bc b = Some (false, c) -> c = bc.
Proof.
  unfold add_new_block. destruct (N.compare _ _); try congruence.
  destruct (last_block bc); [|discriminate].
  destruct (_ || _); congruence.
Qed.

Lemma add_new_block_true (bc c : Blockchain) (b : Block) :
  add_new_block bc b = Some (true, c) ->
  exists last,
    last_block bc = Some last /\
    get_index b = N.of_nat (List.length (blocks bc)) /\
    String.eqb (get_hash last) (previous_hash b) = true /\
    valid_proof (proof last) (proof b) = true /\
    c = mkBlockchain (purge (transactions b) (current_transactions bc)) (blocks bc ++ [b]).
Proof.
  unfold add_new_block. destruct (N.compare _ _) eqn:Ec; try congruence.
  apply N.compare_eq_iff in Ec.
  destruct (last_block bc) as [last|]; [|discriminate].
  destruct (String.eqb (get_hash last) (previous_hash b)) eqn:Eh,
           (valid_proof (proof last) (proof b)) eqn:Ep; simpl; try congruence.
  intros H; injection H as <-. exists last; auto.
Qed.

Lemma last_block_snoc (bc : Blockchain) (b : Block) (pool : list Transaction) :
  last_block (mkBlockchain pool (blocks bc ++ [b])) = Some b.
Proof. unfold last_block; simpl. rewrite rev_app_distr. reflexivity. Qed.

Lemma handle_incoming_block_again (n n1 : Node) (b : Block) :
  handle_incoming_block n b = Some n1 -> handle_incoming_block n1 b = Some n1.
Proof.
  unfold handle_incoming_block at 1.
  destruct (add_new_block (chain n) b) as [[[] c] |] eqn:E; [| | discriminate].
  - apply add_new_block_true in E as (last & Hl & Hi & _ & _ & ->).
    unfold async_broadcast_latest_block; simpl. rewrite last_block_snoc.
    intros H; injection H as <-.
    unfold handle_incoming_block, add_new_block; simpl. rewrite Hi, length_app; simpl.
    replace (N.compare (N.of_nat (List.length (blocks (chain n))))
                       (N.of_nat (List.length (blocks (chain n)) + 1))) with Lt
      by (symmetry; apply N.compare_lt_iff; lia).
    reflexivity.
  - pose proof E as Ec. apply add_new_block_false in Ec; subst c. rewrite set_chain_same.
    intros H; injection H as <-. unfold handle_incoming_block; rewrite E.
    now rewrite set_chain_same.
Qed.

Lemma handle_incoming_peer_again (n : Node) (p : PeerInfo.t) :
  handle_incoming_peer (handle_incoming_peer n p) p = handle_incoming_peer n p.
Proof.
  destruct (add_peer_spec n p) as [[Hk E] | (_ & _ & E)].
  - assert (Hn : handle_incoming_peer n p = n)
      by (unfold handle_incoming_peer; rewrite E; reflexivity).
    now rewrite !Hn.
  - assert (Hn : handle_incoming_peer n p =
                 send_broadcast (mkNode (basic_info n) (chain n) (p :: peers n) (broadcasts n))
                                (NewPeer (basic_info n) p))
      by (unfold handle_incoming_peer; rewrite E; reflexivity).
    rewrite Hn. unfold handle_incoming_peer at 1.
    rewrite add_peer_known; [reflexivity | right; simpl; now left].
Qed.

Lemma handle_incoming_transaction_frame (n : Node) (t : Transaction) :
  basic_info (handle_incoming_transaction n t) = basic_info n /\
  peers (handle_incoming_transaction n t) = peers n.
Proof.
  unfold handle_incoming_transaction.
  destruct (add_new_transaction (chain n) t) as [[] c]; simpl; auto.
Qed.

Lemma handle_incoming_block_frame (n n1 : Node) (b : Block) :
  handle_incoming_block n b = Some n1 ->
  basic_info n1 = basic_info n /\ peers n1 = peers n.
Proof.
  unfold handle_incoming_block, async_broadcast_latest_block.
  destruct (add_new_block (chain n) b) as [[[] c] |]; [| | discriminate].
  - destruct (last_block _); [|discriminate]. intros H; injection H as <-; simpl; auto.
  - intros H; injection H as <-; simpl; auto.
Qed.

Lemma handle_incoming_peer_frame (n : Node) (p : PeerInfo.t) :
  basic_info (handle_incoming_peer n p) = basic_info n /\
  (forall q, In q (peers n) -> In q (peers (handle_incoming_peer n p))).
Proof.
  destruct (add_peer_spec n p) as [[_ E] | (_ & _ & E)];
    unfold handle_incoming_peer; rewrite E; simpl; auto.
Qed.

Lemma serve_request_again (n n1 : Node) (r : Request) (rs : list Response) :
  serve_request n r = Some (n1, rs) -> serve_request n1 r = Some (n1, rs).
Proof.
  assert (Hk : forall m : Node, (basic_info m = get_sender_peer_info r \/
                                 In (get_sender_peer_info r) (peers m)) ->
               serve_request m r =
               match r with
               | Hello _ => Some (m, [Ack (basic_info m)])
               | HowAreYou _ => Some (m, [MyBlocks (basic_info m) (get_blocks m)])
               | NewTransaction _ t => Some (handle_incoming_transaction m t, [])
               | NewBlock _ b =>
                   match handle_incoming_block m b with
                   | None => None
                   | Some m' => Some (m', [])
                   end
               | NewPeer _ q => Some (handle_incoming_peer m q, [])
               end).
  { intros m Hm. unfold serve_request. rewrite add_peer_known by exact Hm.
    destruct r; try reflexivity. destruct (handle_incoming_block m b); reflexivity. }
  assert (Hn0 : exists n0, (basic_info n0 = get_sender_peer_info r \/
                            In (get_sender_peer_info r) (peers n0)) /\
                           serve_request n r = serve_request n0 r).
  { destruct (add_peer_spec n (get_sender_peer_info r)) as [[Hk0 _] | (_ & _ & E)].
    - exists n; auto.
    - exists (mkNode (basic_info n) (chain n) (get_sender_peer_info r :: peers n) (broadcasts n)).
      split; [right; simpl; now left|].
      unfold serve_request at 1. rewrite E. unfold serve_request.
      rewrite add_peer_known by (right; simpl; now left). reflexivity. }
  destruct Hn0 as (n0 & Hm0 & ->). rewrite (Hk n0 Hm0).
  destruct r as [p | p | p t | p b | p q]; simpl in Hm0.
  - intros H; injection H as <- <-. apply Hk. exact Hm0.
  - intros H; injection H as <- <-. apply Hk. exact Hm0.
  - intros H; injection H as <- <-.
    destruct (handle_incoming_transaction_frame n0 t) as [Hb Hp].
    rewrite Hk by (rewrite Hb, Hp; exact Hm0).
    now rewrite handle_incoming_transaction_again.
  - destruct (handle_incoming_block n0 b) as [m|] eqn:Eb; [|discriminate].
    intros H; injection H as <- <-.
    destruct (handle_incoming_block_frame n0 m b Eb) as [Hb Hp].
    rewrite Hk by (rewrite Hb, Hp; exact Hm0).
    now rewrite (handle_incoming_block_again n0 m b Eb).
  - intros H; injection H as <- <-.
    destruct (handle_incoming_peer_frame n0 q) as [Hb Hp].
    rewrite Hk by (rewrite Hb; destruct Hm0 as [Hm0 | Hm0]; [now left | right; now apply Hp]).
    now rewrite handle_incoming_peer_again.
Qed.

(** ** Chain validity *)

Lemma blocks_add_new_transaction (bc : Blockchain) (t : Transaction) :
  blocks (snd (add_new_transaction bc t)) = blocks bc.
Proof.
  destruct (add_new_transaction_cases bc t) as [[_ E] | [_ E]]; rewrite E; reflexivity.
Qed.

Lemma blocks_readmit (c : Blockchain) (l : list Transaction) :
  blocks (readmit c l) = blocks c.
Proof.
  unfold readmit. revert c; induction l as [| t l IH]; intros c; simpl; [reflexivity|].
  rewrite IH. apply blocks_add_new_transaction.
Qed.

Lemma last_block_last (bc : Blockchain) (g : Block) (rest : list Block) (x : Block) :
  blocks bc = g :: rest -> last_block bc = Some x -> last (g :: rest) g = x.
Proof.
  unfold last_block. intros ->. destruct (rev (g :: rest)) as [| y t] eqn:E; [discriminate|].
  intros H; injection H as <-.
  rewrite <- (rev_involutive (g :: rest)), E. simpl. apply last_last.
Qed.

Lemma last_cons_cons {A} (a b : A) (l : list A) (d d' : A) :
  last (a :: b :: l) d = last (b :: l) d'.
Proof.
  revert a b; induction l as [| c l IH]; intros a b; [reflexivity|].
  change (last (b :: c :: l) d = last (b :: c :: l) d'). apply (IH b c).
Qed.

Lemma valid_links_snoc (prev : Block) (rest : list Block) (b : Block) :
  valid_links prev rest = true ->
  previous_hash b = get_hash (last (prev :: rest) prev) ->
  valid_proof (proof (last (prev :: rest) prev)) (proof b) = true ->
  valid_links prev (rest ++ [b]) = true.
Proof.
  revert prev; induction rest as [| c rest IH]; intros prev Hv Hh Hp.
  - simpl in *. rewrite Hh, String.eqb_refl, Hp. reflexivity.
  - rewrite (last_cons_cons prev c rest prev c) in Hh, Hp.
    simpl in Hv |- *.
    destruct (String.eqb (get_hash prev) (previous_hash c)); simpl in *; [|discriminate].
    destruct (valid_proof (proof prev) (proof c)); simpl in *; [|discriminate].
    apply IH; assumption.
Qed.

Lemma valid_chain_snoc (bc : Blockchain) (pool : list Transaction) (last b : Block) :
  valid_chain bc = Some true -> last_block bc = Some last ->
  previous_hash b = get_hash last -> valid_proof (proof last) (proof b) = true ->
  valid_chain (mkBlockchain pool (blocks bc ++ [b])) = Some true.
Proof.
  intros Hv Hl Hh Hp. unfold valid_chain in *; simpl.
  destruct (blocks bc) as [| g rest] eqn:Eb; [discriminate|]. simpl.
  pose proof (last_block_last bc g rest last Eb Hl) as Hx.
  destruct (_ || _ || _); [exact Hv|].
  injection Hv as Hv. f_equal. apply valid_links_snoc; [exact Hv | |]; rewrite Hx; assumption.
Qed.

Lemma valid_chain_nonempty (bc : Blockchain) :
  valid_chain bc = Some true -> exists last, last_block bc = Some last.
Proof.
  unfold valid_chain, last_block. destruct (blocks bc) as [| g rest]; [discriminate|].
  intros _. simpl. destruct (rev rest); simpl; eauto.
Qed.

Lemma valid_chain_blocks (bc bc' : Blockchain) :
  blocks bc = blocks bc' -> valid_chain bc = valid_chain bc'.
Proof. unfold valid_chain. intros ->. reflexivity. Qed.

Lemma update_chain_cases (n : Node) (new_blocks : list Block) :
  (update_chain n new_blocks = Some (false, n) /\
   ((List.length new_blocks <= len (chain n))%nat \/
    valid_chain (from_blocks new_blocks) = Some false)) \/
  ((len (chain n) < List.length new_blocks)%nat /\
   valid_chain (from_blocks new_blocks) = Some true /\
   exists lb,
     last_block (readmit (from_blocks new_blocks) (current_transactions (chain n))) = Some lb /\
     update_chain n new_blocks =
     Some (true, send_broadcast
                   (set_chain n (readmit (from_blocks new_blocks)
                                         (current_transactions (chain n))))
                   (NewBlock (basic_info n) lb))).
Proof.
  destruct (Nat.leb_spec (List.length new_blocks) (len (chain n))) as [Hle | Hlt].
  - left. unfold update_chain. apply Nat.leb_le in Hle as Hb. rewrite Hb. auto.
  - destruct (valid_chain (from_blocks new_blocks)) as [[]|] eqn:Ev.
    + right. split; [exact Hlt | split; [reflexivity|]].
      now apply update_chain_adopts.
    + left. unfold update_chain.
      replace (List.length new_blocks <=? len (chain n))%nat with false
        by (symmetry; apply Nat.leb_gt; exact Hlt).
      rewrite Ev. auto.
    + exfalso. unfold valid_chain in Ev. simpl in Ev.
      destruct new_blocks; [simpl in Hlt; lia | destruct (_ || _ || _); discriminate].
Qed.

Lemma grows_refl (n : Node) : grows n n.
Proof. grows_split; auto. exists []. now rewrite app_nil_r. Qed.

Lemma grows_trans (n m k : Node) : grows n m -> grows m k -> grows n k.
Proof.
  intros (B1 & P1 & I1 & L1 & V1 & l1 & R1) (B2 & P2 & I2 & L2 & V2 & l2 & R2).
  split; [congruence|]. split; [auto|]. split; [auto|]. split; [lia|]. split; [auto|].
  exists (l1 ++ l2). rewrite R2, R1, app_assoc. reflexivity.
Qed.

Lemma grows_add_peer (n : Node) (p : PeerInfo.t) : grows n (snd (add_peer n p)).
Proof.
  destruct (add_peer_spec n p) as [[_ E] | (Hme & Hin & E)]; rewrite E; simpl;
    [apply grows_refl|].
  grows_split; simpl; auto.
  - unfold peers_ok; simpl. intros [H1 H2].
    split; [intros [H | H]; [congruence | contradiction]|].
    constructor; assumption.
  - exists []. now rewrite app_nil_r.
Qed.

Lemma grows_send_broadcast (n : Node) (r : Request) : grows n (send_broadcast n r).
Proof. grows_split; auto. exists [r]. reflexivity. Qed.

Lemma grows_set_chain_same_blocks (n : Node) (c : Blockchain) :
  blocks c = blocks (chain n) -> grows n (set_chain n c).
Proof.
  intros Hb. grows_split; simpl; auto.
  - unfold len; rewrite Hb; lia.
  - now rewrite (valid_chain_blocks c (chain n) Hb).
  - exists []. now rewrite app_nil_r.
Qed.

Lemma grows_set_chain_snoc (n : Node) (pool : list Transaction) (last b : Block) :
  last_block (chain n) = Some last ->
  previous_hash b = get_hash last -> valid_proof (proof last) (proof b) = true ->
  grows n (set_chain n (mkBlockchain pool (blocks (chain n) ++ [b]))).
Proof.
  intros Hl Hh Hp. grows_split; simpl; auto.
  - unfold len; simpl; rewrite length_app; lia.
  - intros Hv. now apply (valid_chain_snoc (chain n) pool last b).
  - exists []. now rewrite app_nil_r.
Qed.

Lemma async_broadcast_latest_block_snoc (n : Node) (pool : list Transaction) (b : Block) :
  async_broadcast_latest_block (set_chain n (mkBlockchain pool (blocks (chain n) ++ [b]))) =
  Some (send_broadcast (set_chain n (mkBlockchain pool (blocks (chain n) ++ [b])))
                       (NewBlock (basic_info n) b)).
Proof. unfold async_broadcast_latest_block; simpl. now rewrite last_block_snoc. Qed.

Lemma grows_handle_incoming_transaction (n : Node) (t : Transaction) :
  grows n (handle_incoming_transaction n t).
Proof.
  unfold handle_incoming_transaction.
  pose proof (blocks_add_new_transaction (chain n) t) as Hb.
  destruct (add_new_transaction (chain n) t) as [[] c]; simpl in Hb.
  - eapply grows_trans; [apply grows_set_chain_same_blocks; exact Hb|].
    apply grows_send_broadcast.
  - apply grows_set_chain_same_blocks; exact Hb.
Qed.

Lemma grows_handle_incoming_block (n n' : Node) (b : Block) :
  handle_incoming_block n b = Some n' -> grows n n'.
Proof.
  unfold handle_incoming_block.
  destruct (add_new_block (chain n) b) as [[[] c] |] eqn:E; [| | discriminate].
  - apply add_new_block_true in E as (last & Hl & Hi & Hh & Hp & ->).
    rewrite async_broadcast_latest_block_snoc. intros H; injection H as <-.
    eapply grows_trans; [|apply grows_send_broadcast].
    apply String.eqb_eq in Hh.
    now apply (grows_set_chain_snoc n _ last b).
  - apply add_new_block_false in E; subst c. intros H; injection H as <-.
    rewrite set_chain_same. apply grows_refl.
Qed.

Lemma grows_handle_incoming_peer (n : Node) (p : PeerInfo.t) :
  grows n (handle_incoming_peer n p).
Proof.
  unfold handle_incoming_peer. pose proof (grows_add_peer n p) as G.
  destruct (add_peer n p) as [[] m]; simpl in G; [|exact G].
  eapply grows_trans; [exact G | apply grows_send_broadcast].
Qed.

Lemma grows_serve_request (n n' : Node) (r : Request) (rs : list Response) :
  serve_request n r = Some (n', rs) -> grows n n'.
Proof.
  unfold serve_request. pose proof (grows_add_peer n (get_sender_peer_info r)) as G.
  destruct (add_peer n (get_sender_peer_info r)) as [b0 m]; simpl in G.
  destruct r as [p | p | p t | p b | p q].
  - intros H; injection H as E1 _; subst n'; exact G.
  - intros H; injection H as E1 _; subst n'; exact G.
  - intros H; injection H as E1 _; subst n'. eapply grows_trans; [exact G|].
    apply grows_handle_incoming_transaction.
  - destruct (handle_incoming_block m b) as [m'|] eqn:E; [|discriminate].
    intros H; injection H as E1 _; subst n'. eapply grows_trans; [exact G|].
    eapply grows_handle_incoming_block; exact E.
  - intros H; injection H as E1 _; subst n'. eapply grows_trans; [exact G|].
    apply grows_handle_incoming_peer.
Qed.

Lemma grows_set_chain_valid (n : Node) (c : Blockchain) :
  valid_chain c = Some true -> (len (chain n) <= len c)%nat -> grows n (set_chain n c).
Proof.
  intros Hv Hl. grows_split; simpl; auto. exists []. now rewrite app_nil_r.
Qed.

Lemma grows_create_and_add_new_transaction (n : Node) (uuid s r : string) (a : Z) :
  grows n (create_and_add_new_transaction n uuid s r a).
Proof.
  unfold create_and_add_new_transaction.
  pose proof (blocks_add_new_transaction (chain n) (transaction_new uuid s r a)) as Hb.
  destruct (add_new_transaction (chain n) _) as [[] c]; simpl in Hb.
  - eapply grows_trans; [apply grows_set_chain_same_blocks; exact Hb|].
    apply grows_send_broadcast.
  - apply grows_set_chain_same_blocks; exact Hb.
Qed.

Lemma grows_say_hello (n : Node) (reply : option Response) : grows n (snd (say_hello n reply)).
Proof.
  unfold say_hello. destruct reply as [[p | p bs] |]; simpl; try apply grows_refl.
  pose proof (grows_add_peer (async_broadcast_peer n p) p) as G.
  destruct (add_peer (async_broadcast_peer n p) p) as [b m] eqn:E; simpl in *.
  eapply grows_trans; [apply grows_send_broadcast | exact G].
Qed.

Lemma grows_greet_and_add_peer (n : Node) (c : bool) (reply : option Response) :
  grows n (snd (greet_and_add_peer n c reply)).
Proof.
  unfold greet_and_add_peer. destruct c; [|apply grows_refl].
  pose proof (grows_say_hello n reply) as G.
  destruct (say_hello n reply) as [[[]|] m]; exact G.
Qed.

Lemma update_chain_never_panics (n : Node) (new_blocks : list Block) :
  update_chain n new_blocks <> None.
Proof.
  destruct (update_chain_cases n new_blocks) as [[E _] | (_ & _ & lb & _ & E)];
    rewrite E; discriminate.
Qed.

Lemma grows_update_chain (n n' : Node) (new_blocks : list Block) (ok : bool) :
  update_chain n new_blocks = Some (ok, n') -> grows n n'.
Proof.
  destruct (update_chain_cases n new_blocks) as [[E _] | (Hlt & Hv & lb & _ & E)];
    rewrite E; intros H; injection H as _ <-; [apply grows_refl|].
  eapply grows_trans; [|apply grows_send_broadcast].
  apply grows_set_chain_valid.
  - rewrite <- Hv. apply valid_chain_blocks. apply blocks_readmit.
  - unfold len at 2. rewrite blocks_readmit. simpl. lia.
Qed.

Lemma grows_resolve_loop (ret : bool) (n : Node) (ps : list PeerInfo.t)
    (reply : PeerInfo.t -> option Response) (ret' : bool) (n' : Node) :
  resolve_loop ret n ps reply = Some (ret', n') -> grows n n'.
Proof.
  revert ret n; induction ps as [| p ps IH]; intros ret n; simpl.
  - intros H; injection H as _ <-; apply grows_refl.
  - unfold resolve_conflict.
    destruct (reply p) as [[q | q bs] |].
    + intros H; apply IH in H; exact H.
    + destruct (update_chain n bs) as [[ok m] |] eqn:E; [|discriminate].
      intros H; apply IH in H. eapply grows_trans; [|exact H].
      eapply grows_update_chain; exact E.
    + intros H; apply IH in H; exact H.
Qed.

Lemma mine_spec (n n' : Node) (fuel : nat) (uuid : string) (now : N) :
  mine n fuel uuid now = Some n' ->
  exists lb pf,
    last_block (chain n) = Some lb /\
    proof_of_work fuel (proof lb) = Some pf /\
    let bonus := transaction_new uuid "0" (PeerInfo.id (basic_info n)) 1 in
    let b := mkBlock (N.of_nat (len (chain n))) now pf
                     (current_transactions (snd (add_new_transaction (chain n) bonus)))
                     (get_hash lb) in
    n' = send_broadcast (set_chain n (mkBlockchain [] (blocks (chain n) ++ [b])))
                        (NewBlock (basic_info n) b).
Proof.
  unfold mine, run_pow.
  destruct (last_block (chain n)) as [lb|] eqn:El; [|discriminate].
  destruct (proof_of_work fuel (proof lb)) as [pf|] eqn:Ep; [|discriminate].
  intros H. exists lb, pf. split; [reflexivity | split; [exact Ep|]]. cbv zeta. revert H.
  unfold create_new_block; simpl.
  rewrite blocks_add_new_transaction.
  rewrite async_broadcast_latest_block_snoc. intros H; injection H as <-. reflexivity.
Qed.

Lemma grows_mine (n n' : Node) (fuel : nat) (uuid : string) (now : N) :
  mine n fuel uuid now = Some n' -> grows n n'.
Proof.
  intros H. apply mine_spec in H as (lb & pf & El & Ep & ->).
  eapply grows_trans; [|apply grows_send_broadcast].
  apply (grows_set_chain_snoc n [] lb); [exact El | reflexivity |].
  unfold proof_of_work in Ep. apply pow_from_least in Ep. simpl. tauto.
Qed.

Lemma grows_serve_command (n n' : Node) (w : World) (c : Command) :
  serve_command n w c = Some n' -> grows n n'.
Proof.
  destruct c; simpl.
  - intros H; injection H as <-. apply grows_create_and_add_new_transaction.
  - destruct (w_output_ok w); [|discriminate]. intros H; injection H as <-. apply grows_refl.
  - destruct (w_many_addrs w addr); [discriminate|].
    pose proof (grows_greet_and_add_peer n (w_connects w addr) (w_hello_reply w addr)) as G.
    destruct (greet_and_add_peer _ _ _) as [ok m]. simpl in G.
    destruct (ok || w_output_ok w); [|discriminate]. intros H; injection H as <-. exact G.
  - destruct (w_output_ok w); [|discriminate]. intros H; injection H as <-. apply grows_refl.
  - unfold resolve_conflicts. destruct (resolve_loop _ _ _ _) as [[ret m] |] eqn:E;
      [|discriminate].
    destruct (w_output_ok w); [|discriminate].
    intros H; injection H as <-. eapply grows_resolve_loop; exact E.
  - apply grows_mine.
Qed.

Lemma grows_run_step (n n' : Node) (w : World) (e : Event) :
  run_step n w e = Some n' -> grows n n'.
Proof.
  destruct e; simpl.
  - destruct (serve_request n r) as [[m rs] |] eqn:E; [|discriminate].
    intros H; injection H as <-. eapply grows_serve_request; exact E.
  - discriminate.
  - intros H; injection H as <-. apply grows_refl.
  - apply grows_serve_command.
Qed.

Lemma reachable_invariant (n : Node) :
  reachable n -> valid_chain (chain n) = Some true /\ peers_ok n.
Proof.
  induction 1 as [me | n w e n' _ [IHv IHp] Hs].
  - split; [reflexivity|]. split; [intros []| constructor].
  - apply grows_run_step in Hs as (_ & Hp & _ & _ & Hv & _). auto.
Qed.

Lemma update_chain_len (n n' : Node) (bs : list Block) (ok : bool) :
  update_chain n bs = Some (ok, n') ->
  (ok = false /\ n' = n /\
   (valid_chain (from_blocks bs) = Some true -> (List.length bs <= len (chain n))%nat)) \/
  (ok = true /\ (len (chain n) < List.length bs)%nat /\ len (chain n') = List.length bs).
Proof.
  destruct (update_chain_cases n bs) as [[E [Hl | Hv]] | (Hlt & Hv & lb & _ & E)];
    rewrite E; intros H; injection H as <- <-.
  - left. auto.
  - left. split; [reflexivity | split; [reflexivity|]]. congruence.
  - right. split; [reflexivity | split; [exact Hlt|]].
    unfold len at 1; simpl. rewrite blocks_readmit. reflexivity.
Qed.

Lemma resolve_loop_spec (ps : list PeerInfo.t) (reply : PeerInfo.t -> option Response)
    (ret : bool) (n : Node) :
  exists ret' n',
    resolve_loop ret n ps reply = Some (ret', n') /\
    ((ret' = ret /\ n' = n) \/ (ret' = true /\ (len (chain n) < len (chain n'))%nat)) /\
    (forall p pi bs, In p ps -> reply p = Some (MyBlocks pi bs) ->
       valid_chain (from_blocks bs) = Some true -> (List.length bs <= len (chain n'))%nat).
Proof.
  revert ret n; induction ps as [| p ps IH]; intros ret n; simpl.
  - exists ret, n. split; [reflexivity | split; [auto | intros; contradiction]].
  - unfold resolve_conflict.
    destruct (reply p) as [[q | q bs] |] eqn:Er.
    + destruct (IH ret n) as (ret' & n' & E & Hc & Hb). exists ret', n'.
      split; [exact E | split; [exact Hc|]].
      intros p' pi bs' [<- | Hin]; [congruence | now apply Hb].
    + pose proof (update_chain_never_panics n bs) as Hnp.
      destruct (update_chain n bs) as [[ok m] |] eqn:Eu; [|congruence].
      destruct (update_chain_len n m bs ok Eu) as [(-> & -> & Hle) | (-> & Hlt & Hm)].
      * rewrite orb_false_r. destruct (IH ret n) as (ret' & n' & E & Hc & Hb).
        exists ret', n'. split; [exact E | split; [exact Hc|]].
        intros p' pi bs' [<- | Hin] Hr Hv; [|now apply (Hb p' pi)].
        rewrite Er in Hr; injection Hr as _ <-.
        pose proof (grows_resolve_loop _ _ _ _ _ _ E) as (_ & _ & _ & L & _). 
        specialize (Hle Hv). lia.
      * rewrite orb_true_r. destruct (IH true m) as (ret' & n' & E & Hc & Hb).
        exists ret', n'. split; [exact E|].
        pose proof (grows_resolve_loop _ _ _ _ _ _ E) as (_ & _ & _ & L & _).
        split; [right; destruct Hc as [[-> ->] | [-> Hl]]; split; auto; lia|].
        intros p' pi bs' [<- | Hin] Hr Hv; [|now apply (Hb p' pi)].
        rewrite Er in Hr; injection Hr as _ <-. lia.
    + destruct (IH ret n) as (ret' & n' & E & Hc & Hb). exists ret', n'.
      split; [exact E | split; [exact Hc|]].
      intros p' pi bs' [<- | Hin]; [congruence | now apply Hb].
Qed.

Lemma broadcast_loop_targets (req : Request) (link : PeerInfo.t -> Link) (ps : list PeerInfo.t) :
  (forall p, In p (map fst (broadcast_loop req link ps)) -> In p ps) /\
  (NoDup ps -> NoDup (map fst (broadcast_loop req link ps))) /\
  (forall x, In x (broadcast_loop req link ps) -> snd x = req).
Proof.
  induction ps as [| p ps (IH1 & IH2 & IH3)]; simpl;
    [split; [|split]; [auto | intros; constructor | intros _ []]|].
  destruct (link p); simpl.
  - split; [intros q Hq; right; auto|]. split; [|exact IH3].
    intros Hnd; inversion Hnd; auto.
  - split; [intros q [Hq | Hq]; [left; exact Hq | right; auto]|].
    split; [|intros x [<- | Hx]; [reflexivity | auto]].
    intros Hnd; inversion Hnd as [| ? ? Hn Hnd']; subst. constructor; auto.
  - split; [intros _ []|]. split; [constructor | intros _ []].
Qed.

Lemma handle_incoming_block_some (n : Node) (b : Block) :
  last_block (chain n) <> None -> handle_incoming_block n b <> None.
Proof.
  intros Hl. unfold handle_incoming_block.
  destruct (add_new_block (chain n) b) as [[[] c] |] eqn:E.
  - apply add_new_block_true in E as (last & _ & _ & _ & _ & ->).
    rewrite async_broadcast_latest_block_snoc. discriminate.
  - discriminate.
  - unfold add_new_block in E. destruct (N.compare _ _); try discriminate.
    destruct (last_block (chain n)); [|contradiction].
    destruct (_ || _); discriminate.
Qed.

Lemma serve_request_some (n : Node) (r : Request) :
  last_block (chain n) <> None -> serve_request n r <> None.
Proof.
  intros Hl. unfold serve_request.
  destruct (add_peer_spec n (get_sender_peer_info r)) as [[_ E] | (_ & _ & E)]; rewrite E;
    destruct r; try discriminate;
    match goal with
    | |- context [handle_incoming_block ?m ?b] =>
        destruct (handle_incoming_block m b) eqn:Eb;
        [discriminate | exfalso; exact (handle_incoming_block_some m b Hl Eb)]
    end.
Qed.

Lemma sapp_assoc (a b c : string) : ((a ++ b) ++ c)%string = (a ++ (b ++ c))%string.
Proof. induction a as [| x a IH]; simpl; [reflexivity | now rewrite IH]. Qed.

Lemma sapp_nil_r (a : string) : (a ++ EmptyString)%string = a.
Proof. induction a as [| x a IH]; simpl; [reflexivity | now rewrite IH]. Qed.

Lemma dec_aux_acc (f : nat) (n : N) (acc : string) :
  dec_aux f n acc = (dec_aux f n EmptyString ++ acc)%string.
Proof.
  revert n acc; induction f as [| f IH]; intros n acc; simpl; [reflexivity|].
  destruct (n <? 10)%N; [reflexivity|].
  rewrite IH, (IH _ (String _ EmptyString)), sapp_assoc. reflexivity.
Qed.

Lemma dec_aux_step (f : nat) (n : N) :
  dec_aux (S f) n EmptyString =
  if (n <? 10)%N then String (dec_digit n) EmptyString
  else (dec_aux f (n / 10) EmptyString ++ String (dec_digit (n mod 10)) EmptyString)%string.
Proof.
  simpl. destruct (N.ltb_spec n 10) as [Hlt | Hge].
  - rewrite N.mod_small by exact Hlt. reflexivity.
  - apply dec_aux_acc.
Qed.

Lemma dec_aux_fuel (f : nat) (n : N) :
  (1 <= f)%nat -> (n < 10 ^ N.of_nat f)%N -> dec_aux (S f) n EmptyString = dec_aux f n EmptyString.
Proof.
  revert n; induction f as [| f IH]; intros n H1 H2; [lia|].
  rewrite dec_aux_step. destruct f as [| f].
  - simpl in H2. rewrite (dec_aux_step 0 n). destruct (N.ltb_spec n 10); [reflexivity | lia].
  - rewrite (dec_aux_step (S f) n). destruct (N.ltb_spec n 10); [reflexivity|].
    rewrite IH; [reflexivity | lia|].
    apply N.Div0.div_lt_upper_bound.
    replace (10 * 10 ^ N.of_nat (S f))%N with (10 ^ N.of_nat (S (S f)))%N; [exact H2|].
    rewrite !Nat2N.inj_succ, N.pow_succ_r'. reflexivity.
Qed.

Lemma to_dec_small (n : N) : (n < 10)%N -> to_dec n = String (dec_digit n) EmptyString.
Proof.
  intros H. unfold to_dec. rewrite dec_aux_step. destruct (N.ltb_spec n 10); [reflexivity | lia].
Qed.

Lemma to_dec_step (n : N) :
  (10 <= n)%N -> (n < dec_bound)%N ->
  to_dec n = (to_dec (n / 10) ++ String (dec_digit (n mod 10)) EmptyString)%string.
Proof.
  intros H1 H2. unfold to_dec. rewrite dec_aux_step.
  destruct (N.ltb_spec n 10); [lia|].
  rewrite (dec_aux_fuel 39 (n / 10)); [reflexivity | lia |].
  apply N.Div0.div_lt_upper_bound.
  assert (E : (10 * 10 ^ N.of_nat 39 = dec_bound)%N) by (vm_compute; reflexivity).
  rewrite E. exact H2.
Qed.

Lemma N_of_dec_digit (d : N) : (d < 10)%N -> N_of_ascii (dec_digit d) = (48 + d)%N.
Proof. intros H. unfold dec_digit. apply N_ascii_embedding. lia. Qed.

Lemma is_digit_dec_digit (d : N) : (d < 10)%N -> is_digit (dec_digit d) = true.
Proof.
  intros H. unfold is_digit. rewrite N_of_dec_digit by exact H.
  apply andb_true_iff; split; apply N.leb_le; lia.
Qed.

Lemma dec_val_from_app (a : N) (s t : string) :
  dec_val_from a (s ++ t) = dec_val_from (dec_val_from a s) t.
Proof. revert a; induction s as [| c s IH]; intros a; simpl; auto. Qed.

Lemma all_digits_app (s t : string) : all_digits (s ++ t) = all_digits s && all_digits t.
Proof. induction s as [| c s IH]; simpl; [reflexivity | now rewrite IH, andb_assoc]. Qed.

Lemma N_lt_ind (P : N -> Prop) :
  (forall n, (forall m, (m < n)%N -> P m) -> P n) -> forall n, P n.
Proof. intros H n. induction n as [n IH] using (well_founded_ind N.lt_wf_0). auto. Qed.

Lemma to_dec_val (n : N) : (n < dec_bound)%N -> dec_val_from 0 (to_dec n) = n.
Proof.
  induction n as [n IH] using N_lt_ind. intros Hb.
  destruct (N.ltb_spec n 10) as [Hlt | Hge].
  - rewrite to_dec_small by exact Hlt. cbn [dec_val_from].
    rewrite N_of_dec_digit by exact Hlt. lia.
  - rewrite to_dec_step by assumption. rewrite dec_val_from_app. rewrite IH.
    + cbn [dec_val_from]. rewrite N_of_dec_digit by (apply N.mod_lt; lia).
      pose proof (N.div_mod n 10 ltac:(lia)). rewrite N.add_comm with (n := 48%N), N.add_sub. lia.
    + apply N.div_lt; lia.
    + pose proof (N.Div0.div_le_upper_bound n 10 n ltac:(lia)); lia.
Qed.

Lemma to_dec_inj (a b : N) :
  (a < dec_bound)%N -> (b < dec_bound)%N -> to_dec a = to_dec b -> a = b.
Proof.
  intros Ha Hb E. rewrite <- (to_dec_val a Ha), <- (to_dec_val b Hb), E. reflexivity.
Qed.

Lemma to_dec_digits (n : N) : (n < dec_bound)%N -> all_digits (to_dec n) = true.
Proof.
  induction n as [n IH] using N_lt_ind. intros Hb.
  destruct (N.ltb_spec n 10) as [Hlt | Hge].
  - rewrite to_dec_small by exact Hlt. cbn [all_digits].
    now rewrite is_digit_dec_digit.
  - rewrite to_dec_step by assumption. rewrite all_digits_app, IH.
    + cbn [all_digits andb]. now rewrite is_digit_dec_digit by (apply N.mod_lt; lia).
    + apply N.div_lt; lia.
    + pose proof (N.Div0.div_le_upper_bound n 10 n ltac:(lia)); lia.
Qed.

Lemma to_dec_head (n : N) :
  (n < dec_bound)%N -> exists c s, to_dec n = String c s /\ is_digit c = true.
Proof.
  intros Hb. pose proof (to_dec_digits n Hb) as Hd.
  destruct (to_dec n) as [| c s] eqn:E.
  - exfalso. destruct (N.ltb_spec n 10) as [Hlt | Hge].
    + rewrite to_dec_small in E by exact Hlt. discriminate.
    + rewrite to_dec_step in E by assumption.
      destruct (to_dec (n / 10)); discriminate.
  - exists c, s. split; [reflexivity|]. simpl in Hd. now apply andb_true_iff in Hd.
Qed.

Lemma digits_delim (s1 s2 : string) (c : ascii) (r1 r2 : string) :
  all_digits s1 = true -> all_digits s2 = true -> is_digit c = false ->
  (s1 ++ String c r1)%string = (s2 ++ String c r2)%string -> s1 = s2 /\ r1 = r2.
Proof.
  revert s2; induction s1 as [| x s1 IH]; intros s2 H1 H2 Hc E; destruct s2 as [| y s2];
    simpl in *.
  - injection E as ->. auto.
  - injection E as -> _. rewrite Hc in H2. discriminate.
  - injection E as <- _. rewrite Hc in H1. discriminate.
  - injection E as <- E. apply andb_true_iff in H1 as [_ H1]. apply andb_true_iff in H2 as [_ H2].
    destruct (IH s2 H1 H2 Hc E) as [-> ->]. auto.
Qed.

Lemma to_dec_delim (a b : N) (c : ascii) (r1 r2 : string) :
  (a < dec_bound)%N -> (b < dec_bound)%N -> is_digit c = false ->
  (to_dec a ++ String c r1)%string = (to_dec b ++ String c r2)%string -> a = b /\ r1 = r2.
Proof.
  intros Ha Hb Hc E.
  destruct (digits_delim _ _ _ _ _ (to_dec_digits a Ha) (to_dec_digits b Hb) Hc E) as [E1 E2].
  split; [now apply to_dec_inj | exact E2].
Qed.

Lemma to_digit_is_digit (c : ascii) :
  is_digit c = true -> to_digit c = Some (Z.of_N (N_of_ascii c - 48)).
Proof. unfold to_digit, is_digit. intros H. now rewrite H. Qed.

Lemma dec_val_from_ge (a : N) (s : string) : (a <= dec_val_from a s)%N.
Proof.
  revert a; induction s as [| c s IH]; intros a; cbn [dec_val_from]; [lia|].
  specialize (IH (a * 10 + (N_of_ascii c - 48))%N). lia.
Qed.

Lemma parse_pos_digits (a : N) (s : string) :
  all_digits s = true -> (Z.of_N (dec_val_from a s) <= i64_max)%Z ->
  parse_pos (Z.of_N a) s = Some (Z.of_N (dec_val_from a s)).
Proof.
  revert a; induction s as [| c s IH]; intros a Hd Hb; cbn [dec_val_from parse_pos] in *;
    [reflexivity|].
  apply andb_true_iff in Hd as [Hc Hd].
  rewrite (to_digit_is_digit c Hc).
  pose proof (dec_val_from_ge (a * 10 + (N_of_ascii c - 48)) s) as Hge.
  destruct (Z.ltb_spec i64_max (Z.of_N a * 10)); [lia|].
  destruct (Z.ltb_spec i64_max (Z.of_N a * 10 + Z.of_N (N_of_ascii c - 48))); [lia|].
  replace (Z.of_N a * 10 + Z.of_N (N_of_ascii c - 48))%Z
    with (Z.of_N (a * 10 + (N_of_ascii c - 48))) by lia.
  apply IH; assumption.
Qed.

Lemma parse_neg_digits (a : N) (s : string) :
  all_digits s = true -> (i64_min <= - Z.of_N (dec_val_from a s))%Z ->
  parse_neg (- Z.of_N a) s = Some (- Z.of_N (dec_val_from a s))%Z.
Proof.
  revert a; induction s as [| c s IH]; intros a Hd Hb; cbn [dec_val_from parse_neg] in *;
    [reflexivity|].
  apply andb_true_iff in Hd as [Hc Hd].
  rewrite (to_digit_is_digit c Hc).
  pose proof (dec_val_from_ge (a * 10 + (N_of_ascii c - 48)) s) as Hge.
  destruct (Z.ltb_spec (- Z.of_N a * 10) i64_min); [lia|].
  destruct (Z.ltb_spec (- Z.of_N a * 10 - Z.of_N (N_of_ascii c - 48)) i64_min); [lia|].
  replace (- Z.of_N a * 10 - Z.of_N (N_of_ascii c - 48))%Z
    with (- Z.of_N (a * 10 + (N_of_ascii c - 48)))%Z by lia.
  apply IH; assumption.
Qed.

Lemma parse_pos_overflow (a : N) (s : string) :
  all_digits s = true -> (Z.of_N a <= i64_max)%Z ->
  (i64_max < Z.of_N (dec_val_from a s))%Z -> parse_pos (Z.of_N a) s = None.
Proof.
  revert a; induction s as [| c s IH]; intros a Hd Ha Hb; cbn [dec_val_from parse_pos] in *;
    [lia|].
  apply andb_true_iff in Hd as [Hc Hd].
  rewrite (to_digit_is_digit c Hc).
  destruct (Z.ltb_spec i64_max (Z.of_N a * 10)); [reflexivity|].
  destruct (Z.ltb_spec i64_max (Z.of_N a * 10 + Z.of_N (N_of_ascii c - 48))); [reflexivity|].
  replace (Z.of_N a * 10 + Z.of_N (N_of_ascii c - 48))%Z
    with (Z.of_N (a * 10 + (N_of_ascii c - 48))) by lia.
  apply IH; [exact Hd | lia | exact Hb].
Qed.

Lemma parse_neg_overflow (a : N) (s : string) :
  all_digits s = true -> (i64_min <= - Z.of_N a)%Z ->
  (- Z.of_N (dec_val_from a s) < i64_min)%Z -> parse_neg (- Z.of_N a) s = None.
Proof.
  revert a; induction s as [| c s IH]; intros a Hd Ha Hb; cbn [dec_val_from parse_neg] in *;
    [lia|].
  apply andb_true_iff in Hd as [Hc Hd].
  rewrite (to_digit_is_digit c Hc).
  destruct (Z.ltb_spec (- Z.of_N a * 10) i64_min); [reflexivity|].
  destruct (Z.ltb_spec (- Z.of_N a * 10 - Z.of_N (N_of_ascii c - 48)) i64_min); [reflexivity|].
  replace (- Z.of_N a * 10 - Z.of_N (N_of_ascii c - 48))%Z
    with (- Z.of_N (a * 10 + (N_of_ascii c - 48)))%Z by lia.
  apply IH; [exact Hd | lia | exact Hb].
Qed.

Lemma parse_pos_value (s : string) :
  all_digits s = true ->
  parse_pos 0 s = (if (Z.of_N (dec_val_from 0 s) <=? i64_max)%Z
                   then Some (Z.of_N (dec_val_from 0 s)) else None).
Proof.
  intros Hd. change 0%Z with (Z.of_N 0).
  destruct (Z.leb_spec (Z.of_N (dec_val_from 0 s)) i64_max).
  - apply parse_pos_digits; assumption.
  - apply parse_pos_overflow; [exact Hd | unfold i64_max; lia | exact H].
Qed.

Lemma parse_neg_value (s : string) :
  all_digits s = true ->
  parse_neg 0 s = (if (i64_min <=? - Z.of_N (dec_val_from 0 s))%Z
                   then Some (- Z.of_N (dec_val_from 0 s))%Z else None).
Proof.
  intros Hd. change 0%Z with (- Z.of_N 0)%Z.
  destruct (Z.leb_spec i64_min (- Z.of_N (dec_val_from 0 s))).
  - apply parse_neg_digits; assumption.
  - apply parse_neg_overflow; [exact Hd | unfold i64_min; lia | exact H].
Qed.

Lemma digit_not_sign (c : ascii) :
  is_digit c = true -> Ascii.eqb c "+" = false /\ Ascii.eqb c "-" = false.
Proof.
  unfold is_digit. intros H. apply andb_true_iff in H as [H1 H2].
  apply N.leb_le in H1, H2. split; apply Ascii.eqb_neq; intros ->; simpl in *; lia.
Qed.

Lemma i64_in_dec_bound (z : Z) :
  (i64_min <= z <= i64_max)%Z -> (Z.to_N (Z.abs z) < dec_bound)%N.
Proof.
  unfold i64_min, i64_max. intros H.
  assert (E : dec_bound = Z.to_N (10 ^ 40)) by (vm_compute; reflexivity).
  rewrite E. apply Z2N.inj_lt; lia.
Qed.

Lemma parse_i64_print (z : Z) :
  (i64_min <= z <= i64_max)%Z -> parse_i64 (Json.i64 z) = Some z.
Proof.
  intros Hz. pose proof (i64_in_dec_bound z Hz) as Hb. unfold Json.i64.
  destruct (Z.ltb_spec z 0) as [Hn | Hp].
  - replace (Z.to_N (- z)) with (Z.to_N (Z.abs z)) by (f_equal; lia).
    destruct (to_dec_head _ Hb) as [c [s [Es Hc]]].
    cbn [String.append parse_i64]. rewrite Es. cbn [Ascii.eqb Bool.eqb]. rewrite <- Es.
    change 0%Z with (- Z.of_N 0)%Z.
    rewrite parse_neg_digits.
    + rewrite to_dec_val by exact Hb. f_equal. lia.
    + apply to_dec_digits; exact Hb.
    + rewrite to_dec_val by exact Hb. unfold i64_min in *. lia.
  - replace (Z.to_N z) with (Z.to_N (Z.abs z)) by (f_equal; lia).
    destruct (to_dec_head _ Hb) as [c [s [Es Hc]]].
    unfold parse_i64. rewrite Es.
    destruct (digit_not_sign c Hc) as [-> ->]. rewrite <- Es.
    change 0%Z with (Z.of_N 0). rewrite parse_pos_digits.
    + rewrite to_dec_val by exact Hb. f_equal. lia.
    + apply to_dec_digits; exact Hb.
    + rewrite to_dec_val by exact Hb. unfold i64_max in *. lia.
Qed.

Lemma parse_pos_range (r : Z) (s : string) (z : Z) :
  (0 <= r <= i64_max)%Z -> parse_pos r s = Some z -> (0 <= z <= i64_max)%Z.
Proof.
  revert r; induction s as [| c s IH]; intros r Hr E; cbn [parse_pos] in E.
  - injection E as <-. exact Hr.
  - unfold to_digit in E. destruct (_ && _)%bool; [|discriminate].
    destruct (Z.ltb_spec i64_max (r * 10)); [discriminate|].
    destruct (Z.ltb_spec i64_max (r * 10 + Z.of_N (N_of_ascii c - 48))); [discriminate|].
    refine (IH _ _ E). lia.
Qed.

Lemma parse_neg_range (r : Z) (s : string) (z : Z) :
  (i64_min <= r <= 0)%Z -> parse_neg r s = Some z -> (i64_min <= z <= 0)%Z.
Proof.
  revert r; induction s as [| c s IH]; intros r Hr E; cbn [parse_neg] in E.
  - injection E as <-. exact Hr.
  - unfold to_digit in E. destruct (_ && _)%bool; [|discriminate].
    destruct (Z.ltb_spec (r * 10) i64_min); [discriminate|].
    destruct (Z.ltb_spec (r * 10 - Z.of_N (N_of_ascii c - 48)) i64_min); [discriminate|].
    refine (IH _ _ E). lia.
Qed.

Lemma parse_i64_range (s : string) (z : Z) :
  parse_i64 s = Some z -> (i64_min <= z <= i64_max)%Z.
Proof.
  assert (Hm : (i64_min <= 0 <= i64_max)%Z) by (unfold i64_min, i64_max; lia).
  unfold parse_i64. destruct s as [| c rest]; [discriminate|].
  destruct (Ascii.eqb c "+").
  - destruct rest; [discriminate|]. intros E. apply parse_pos_range in E; lia.
  - destruct (Ascii.eqb c "-").
    + destruct rest; [discriminate|]. intros E. apply parse_neg_range in E; lia.
    + intros E. apply parse_pos_range in E; lia.
Qed.

Lemma unescape_escape_char (c : ascii) (r : string) :
  unescape_one (Json.escape_char c ++ r) = Some (c, r).
Proof. destruct c as [[] [] [] [] [] [] [] []]; reflexivity. Qed.

Lemma escape_char_head (c : ascii) :
  exists d s, Json.escape_char c = String d s /\ nat_of_ascii d <> 34%nat.
Proof.
  destruct c as [[] [] [] [] [] [] [] []];
    (eexists _, _; split; [reflexivity | intros H; vm_compute in H; discriminate H]).
Qed.

Lemma escape_char_inj (c1 c2 : ascii) (r1 r2 : string) :
  (Json.escape_char c1 ++ r1)%string = (Json.escape_char c2 ++ r2)%string -> c1 = c2 /\ r1 = r2.
Proof.
  intros E. pose proof (f_equal unescape_one E) as F.
  rewrite !unescape_escape_char in F. injection F as -> ->. auto.
Qed.

Lemma escape_quote_inj (s1 s2 r1 r2 : string) :
  (Json.escape s1 ++ Json.quote ++ r1)%string = (Json.escape s2 ++ Json.quote ++ r2)%string ->
  s1 = s2 /\ r1 = r2.
Proof.
  revert s2; induction s1 as [| c1 s1 IH]; intros s2 E; destruct s2 as [| c2 s2];
    cbn [Json.escape] in E.
  - cbn in E. injection E as ->. auto.
  - exfalso. destruct (escape_char_head c2) as [d [s [Ed Hd]]].
    rewrite sapp_assoc, Ed in E. cbn in E. injection E as Ec _. apply Hd. now rewrite <- Ec.
  - exfalso. destruct (escape_char_head c1) as [d [s [Ed Hd]]].
    rewrite sapp_assoc, Ed in E. cbn in E. injection E as Ec _. apply Hd. now rewrite Ec.
  - rewrite !sapp_assoc in E. apply escape_char_inj in E as [-> E].
    destruct (IH s2 E) as [-> ->]. auto.
Qed.

Lemma sapp_inj_l (p a b : string) : (p ++ a)%string = (p ++ b)%string -> a = b.
Proof. induction p as [| c p IH]; cbn; [auto | intros E; injection E; auto]. Qed.

Lemma str_inj (s1 s2 r1 r2 : string) :
  (Json.str s1 ++ r1)%string = (Json.str s2 ++ r2)%string -> s1 = s2 /\ r1 = r2.
Proof.
  unfold Json.str. rewrite !sapp_assoc. intros E. apply sapp_inj_l in E.
  now apply escape_quote_inj.
Qed.

Lemma is_digit_comma : is_digit ","%char = false.
Proof. reflexivity. Qed.

Lemma i64_delim (z1 z2 : Z) (c : ascii) (r1 r2 : string) :
  (i64_min <= z1 <= i64_max)%Z -> (i64_min <= z2 <= i64_max)%Z -> is_digit c = false ->
  (Json.i64 z1 ++ String c r1)%string = (Json.i64 z2 ++ String c r2)%string ->
  z1 = z2 /\ r1 = r2.
Proof.
  intros H1 H2 Hc. pose proof (i64_in_dec_bound z1 H1) as B1.
  pose proof (i64_in_dec_bound z2 H2) as B2. unfold Json.i64.
  destruct (Z.ltb_spec z1 0), (Z.ltb_spec z2 0); intros E.
  all: try replace (Z.to_N (- z1)) with (Z.to_N (Z.abs z1)) in E by (f_equal; lia).
  all: try replace (Z.to_N (- z2)) with (Z.to_N (Z.abs z2)) in E by (f_equal; lia).
  all: try replace (Z.to_N z1) with (Z.to_N (Z.abs z1)) in E by (f_equal; lia).
  all: try replace (Z.to_N z2) with (Z.to_N (Z.abs z2)) in E by (f_equal; lia).
  - cbn [String.append] in E. injection E as E.
    apply to_dec_delim in E as [E ->]; auto. split; [|reflexivity].
    apply (f_equal Z.of_N) in E. rewrite !Z2N.id in E by lia. lia.
  - exfalso. destruct (to_dec_head _ B2) as [d [s [Es Hd]]]. rewrite Es in E.
    cbn [String.append] in E. injection E as Ed _. subst d. discriminate Hd.
  - exfalso. destruct (to_dec_head _ B1) as [d [s [Es Hd]]]. rewrite Es in E.
    cbn [String.append] in E. injection E as Ed _. subst d. discriminate Hd.
  - apply to_dec_delim in E as [E ->]; auto. split; [|reflexivity].
    apply (f_equal Z.of_N) in E. rewrite !Z2N.id in E by lia. lia.
Qed.

Ltac strip E := repeat (apply sapp_inj_l in E).

Lemma transaction_inj (a b : Transaction) (r1 r2 : string) :
  tx_wf a -> tx_wf b ->
  (Json.transaction a ++ r1)%string = (Json.transaction b ++ r2)%string -> a = b /\ r1 = r2.
Proof.
  intros Ha Hb E. unfold Json.transaction in E. rewrite !sapp_assoc in E.
  strip E. apply str_inj in E as [Ei E].
  strip E. apply str_inj in E as [Es E].
  strip E. apply str_inj in E as [Er E].
  strip E. apply i64_delim in E as [Ea E]; auto.
  destruct a, b; cbn in *; subst; auto.
Qed.

Lemma sep_cons (x : string) (l : list string) :
  Json.sep (x :: l) = (x ++ match l with [] => EmptyString | _ :: _ => "," ++ Json.sep l end)%string.
Proof. destruct l; cbn [Json.sep]; [now rewrite sapp_nil_r | reflexivity]. Qed.

Lemma transaction_head (t : Transaction) (r : string) :
  exists s, (Json.transaction t ++ r)%string = String "{" s.
Proof. eexists. reflexivity. Qed.

Lemma sep_transactions_inj (xs ys : list Transaction) (r1 r2 : string) :
  Forall tx_wf xs -> Forall tx_wf ys ->
  (Json.sep (map Json.transaction xs) ++ "]" ++ r1)%string =
  (Json.sep (map Json.transaction ys) ++ "]" ++ r2)%string -> xs = ys /\ r1 = r2.
Proof.
  revert ys; induction xs as [| x xs IH]; intros ys Hx Hy E; destruct ys as [| y ys].
  - cbn in E. injection E as ->. auto.
  - exfalso. cbn [map] in E. rewrite sep_cons, sapp_assoc in E.
    edestruct (transaction_head y) as [s Es]. rewrite Es in E. cbn in E. discriminate E.
  - exfalso. cbn [map] in E. rewrite sep_cons, sapp_assoc in E.
    edestruct (transaction_head x) as [s Es]. rewrite Es in E. cbn in E. discriminate E.
  - inversion Hx as [| ? ? Hx0 Hx1]; subst. inversion Hy as [| ? ? Hy0 Hy1]; subst.
    cbn [map] in E. rewrite !sep_cons, !sapp_assoc in E.
    apply transaction_inj in E as [-> E]; auto.
    destruct xs as [| x' xs], ys as [| y' ys]; cbn [map] in E.
    + cbn in E. injection E as ->. auto.
    + cbn in E. discriminate E.
    + cbn in E. discriminate E.
    + rewrite !sapp_assoc in E. cbn [String.append] in E. injection E as E.
      destruct (IH (y' :: ys) Hx1 Hy1 E) as [Ex ->]. rewrite Ex. auto.
Qed.

Lemma dec_bound_u128 (n : N) : (n < 2 ^ 128)%N -> (n < dec_bound)%N.
Proof.
  intros H. assert (E : (2 ^ 128 < dec_bound)%N) by (vm_compute; reflexivity). lia.
Qed.

Lemma dec_bound_u64 (n : N) : (n < 2 ^ 64)%N -> (n < dec_bound)%N.
Proof.
  intros H. apply dec_bound_u128.
  assert (E : (2 ^ 64 < 2 ^ 128)%N) by (vm_compute; reflexivity). lia.
Qed.

Lemma block_json_inj (a b : Block) :
  block_wf a -> block_wf b -> Json.block a = Json.block b -> a = b.
Proof.
  intros [Ai [At [Ap Ax]]] [Bi [Bt [Bp Bx]]] E.
  unfold Json.block in E.
  strip E. apply to_dec_delim in E as [Ei E]; auto using dec_bound_u64.
  strip E. apply to_dec_delim in E as [Et E]; auto using dec_bound_u128.
  strip E. apply to_dec_delim in E as [Ep E]; auto using dec_bound_u64.
  strip E. apply sep_transactions_inj in E as [Ex E]; auto.
  strip E. apply (str_inj _ _ "}" "}") in E as [Eh _].
  destruct a, b; cbn in *; subst; auto.
Qed.

Lemma slen_app (s t : string) :
  String.length (s ++ t) = (String.length s + String.length t)%nat.
Proof. induction s as [| c s IH]; cbn; [reflexivity | now rewrite IH]. Qed.

Lemma to_dec_length_pos (n : N) : (n < dec_bound)%N -> (1 <= String.length (to_dec n))%nat.
Proof. intros H. destruct (to_dec_head n H) as [c [s [-> _]]]. cbn. lia. Qed.

Lemma to_dec_bound_length (n : N) :
  (n < dec_bound)%N -> (n < 10 ^ N.of_nat (String.length (to_dec n)))%N.
Proof.
  induction n as [n IH] using N_lt_ind. intros Hb.
  destruct (N.ltb_spec n 10) as [Hlt | Hge].
  - rewrite to_dec_small by exact Hlt. cbn. lia.
  - rewrite to_dec_step by assumption. rewrite slen_app. cbn [String.length].
    assert (Hd : (n / 10 < n)%N) by (apply N.div_lt; lia).
    assert (Hb' : (n / 10 < dec_bound)%N) by lia.
    specialize (IH _ Hd Hb').
    rewrite Nat.add_1_r, Nat2N.inj_succ, N.pow_succ_r'.
    pose proof (N.div_mod n 10 ltac:(lia)). pose proof (N.mod_lt n 10 ltac:(lia)). nia.
Qed.

Lemma to_dec_prepend (d b : N) :
  (1 <= d <= 9)%N ->
  (d * 10 ^ N.of_nat (String.length (to_dec b)) + b < dec_bound)%N ->
  to_dec (d * 10 ^ N.of_nat (String.length (to_dec b)) + b) = String (dec_digit d) (to_dec b).
Proof.
  induction b as [b IH] using N_lt_ind. intros Hd Hb.
  assert (Hbb : (b < dec_bound)%N) by lia.
  destruct (N.ltb_spec b 10) as [Hlt | Hge].
  - rewrite (to_dec_small b Hlt) in *. cbn [String.length N.of_nat Pos.of_succ_nat] in *.
    change (10 ^ N.pos 1)%N with 10%N in *.
    rewrite to_dec_step by lia.
    replace ((d * 10 + b) / 10)%N with d.
    2:{ apply (N.div_unique _ _ _ b); lia. }
    replace ((d * 10 + b) mod 10)%N with b.
    2:{ apply (N.mod_unique _ _ d); lia. }
    rewrite to_dec_small by lia. reflexivity.
  - rewrite (to_dec_step b) in Hb |- * by assumption.
    rewrite slen_app in Hb |- *. cbn [String.length] in Hb |- *.
    rewrite Nat.add_1_r, Nat2N.inj_succ, N.pow_succ_r' in Hb |- *.
    set (k := N.of_nat (String.length (to_dec (b / 10)))) in *.
    assert (Hdiv : (b / 10 < b)%N) by (apply N.div_lt; lia).
    pose proof (N.div_mod b 10 ltac:(lia)) as Hbm. pose proof (N.mod_lt b 10 ltac:(lia)) as Hml.
    assert (Hq : ((d * (10 * 10 ^ k) + b) / 10 = d * 10 ^ k + b / 10)%N).
    { symmetry. apply (N.div_unique _ _ _ (b mod 10)); lia. }
    assert (Hr : ((d * (10 * 10 ^ k) + b) mod 10 = b mod 10)%N).
    { symmetry. apply (N.mod_unique _ _ (d * 10 ^ k + b / 10)); lia. }
    assert (Hpos : (10 ^ k <> 0)%N) by (apply N.pow_nonzero; lia).
    rewrite to_dec_step by lia.
    assert (Hle : (d * 10 ^ k + b / 10 <= d * (10 * 10 ^ k) + b)%N).
    { assert (d * 10 ^ k <= d * (10 * 10 ^ k))%N by nia. lia. }
    rewrite Hq, Hr. unfold k in *. rewrite IH; [reflexivity | exact Hdiv | exact Hd | lia].
Qed.

(** X1: serving a request is idempotent: when [serve_request] turns the
    node [n] into [n1] with the responses [rs], serving the same request
    again to [n1] gives the same responses and leaves [n1] unchanged (a
    repeated transaction, block or peer is dropped). *)
Theorem serve_request_idempotent (n n1 : Node) (r : Request) (rs : list Response) :
  serve_request n r = Some (n1, rs) -> serve_request n1 r = Some (n1, rs).
Proof. apply serve_request_again. Qed.

Lemma serve_request_idempotent_witness :
  serve_request node0 (Hello peer1) = Some (node1, [Ack me]) /\
  serve_request node1 (Hello peer1) = Some (node1, [Ack me]).
Proof.
  assert (H : serve_request node0 (Hello peer1) = Some (node1, [Ack me])) by (vm_compute; reflexivity).
  split; [exact H | exact (serve_request_idempotent node0 node1 (Hello peer1) [Ack me] H)].
Defined.

(** X2: every node state that [Node::run] can reach has a valid chain,
    does not list itself among its peers, and lists no peer twice. *)
Theorem reachable_state_ok (n : Node) :
  reachable n ->
  valid_chain (chain n) = Some true /\ ~ In (basic_info n) (peers n) /\ NoDup (peers n).
Proof. intros H. apply reachable_invariant in H as [Hv [Hm Hd]]. auto. Qed.

Lemma reachable_node1 : reachable node1.
Proof.
  apply (reachable_step (run_init me) world0 (ERequest (Hello peer1))); [constructor|].
  vm_compute. reflexivity.
Qed.

Lemma reachable_state_ok_witness :
  valid_chain (chain node1) = Some true /\ ~ In (basic_info node1) (peers node1) /\
  NoDup (peers node1).
Proof. exact (reachable_state_ok node1 reachable_node1). Defined.

(** X3: one turn of the event loop never changes the node's identity,
    never forgets a peer, never shortens the chain, keeps a valid chain
    valid, and only appends to the requests sent for broadcast. *)
Theorem run_step_monotone (n n' : Node) (w : World) (e : Event) :
  run_step n w e = Some n' ->
  basic_info n' = basic_info n /\
  (forall p, In p (peers n) -> In p (peers n')) /\
  (len (chain n) <= len (chain n'))%nat /\
  (valid_chain (chain n) = Some true -> valid_chain (chain n') = Some true) /\
  exists l, broadcasts n' = broadcasts n ++ l.
Proof. intros H. apply grows_run_step in H as (A & _ & B & C & D & E). auto. Qed.

Lemma run_step_monotone_witness :
  run_step node0 world0 (ECommand (NewTrans "a" "b" 5)) =
    Some (mkNode me (mkBlockchain [mkTransaction "u1" "a" "b" 5] [genesis]) []
            [NewTransaction me (mkTransaction "u1" "a" "b" 5)]) /\
  (len (chain node0) <= len (chain (mkNode me (mkBlockchain [mkTransaction "u1" "a" "b" 5] [genesis]) []
            [NewTransaction me (mkTransaction "u1" "a" "b" 5)])))%nat.
Proof.
  assert (H : run_step node0 world0 (ECommand (NewTrans "a" "b" 5)) =
    Some (mkNode me (mkBlockchain [mkTransaction "u1" "a" "b" 5] [genesis]) []
            [NewTransaction me (mkTransaction "u1" "a" "b" 5)])) by (vm_compute; reflexivity).
  split; [exact H | exact (proj1 (proj2 (proj2 (run_step_monotone _ _ _ _ H))))].
Defined.

(** X4: a request from a peer never makes a reachable node panic: whatever
    the request, [serve_request] returns the responses to write and the
    turn of the event loop ends in the updated node. *)
Theorem reachable_request_no_panic (n : Node) (w : World) (r : Request) :
  reachable n ->
  exists n' rs, serve_request n r = Some (n', rs) /\ run_step n w (ERequest r) = Some n'.
Proof.
  intros Hr. apply reachable_invariant in Hr as [Hv _].
  destruct (valid_chain_nonempty _ Hv) as [lb E].
  assert (Hl : last_block (chain n) <> None) by (rewrite E; discriminate).
  pose proof (serve_request_some n r Hl) as Hs.
  simpl. destruct (serve_request n r) as [[n' rs] |]; [|contradiction].
  exists n', rs. auto.
Qed.

Lemma reachable_request_no_panic_witness :
  exists n' rs, serve_request node1 (NewPeer peer1 me) = Some (n', rs) /\
                run_step node1 world0 (ERequest (NewPeer peer1 me)) = Some n'.
Proof. exact (reachable_request_no_panic node1 world0 (NewPeer peer1 me) reachable_node1). Defined.

(** X5: for a reachable node, [broadcast_request] sends the request only
    to listed peers, never to the node itself, and to no peer twice. *)
Theorem broadcast_request_reaches_peers (n : Node) (link : PeerInfo.t -> Link) (req : Request) :
  reachable n ->
  NoDup (map fst (broadcast_request n link req)) /\
  (forall p r, In (p, r) (broadcast_request n link req) ->
     In p (peers n) /\ p <> basic_info n /\ r = req).
Proof.
  intros Hr. apply reachable_invariant in Hr as [_ [Hm Hd]].
  destruct (broadcast_loop_targets req link (peers n)) as (H1 & H2 & H3).
  unfold broadcast_request. split; [now apply H2|].
  intros p r Hin. assert (Hp : In p (peers n)).
  { apply H1. apply (in_map fst) in Hin. exact Hin. }
  split; [exact Hp|]. split; [intros ->; contradiction|].
  exact (H3 _ Hin).
Qed.

Lemma broadcast_request_reaches_peers_witness :
  broadcast_request node1 (fun _ => Delivered) (Hello me) = [(peer1, Hello me)] /\
  NoDup (map fst (broadcast_request node1 (fun _ => Delivered) (Hello me))).
Proof.
  split; [reflexivity|].
  exact (proj1 (broadcast_request_reaches_peers node1 (fun _ => Delivered) (Hello me)
                  reachable_node1)).
Defined.

(** X6: [resolve_conflicts] never panics; it returns [false] with the
    node unchanged, or [true] with a strictly longer chain; and the final
    chain is at least as long as every valid chain a peer sent back. *)
Theorem resolve_conflicts_longest (n : Node) (reply : PeerInfo.t -> option Response) :
  exists ret n',
    resolve_conflicts n reply = Some (ret, n') /\
    ((ret = false /\ n' = n) \/ (ret = true /\ (len (chain n) < len (chain n'))%nat)) /\
    (forall p pi bs, In p (peers n) -> reply p = Some (MyBlocks pi bs) ->
       valid_chain (from_blocks bs) = Some true -> (List.length bs <= len (chain n'))%nat).
Proof. apply resolve_loop_spec. Qed.

(** X7: a successful [mine] appends one block and nothing else: its
    index is the old length, its proof the least valid proof after the
    last block's proof, its previous hash the hash of the old last block,
    and it carries the pool plus the reward transaction when the drawn id
    is fresh; the pool is emptied and the block is broadcast. *)
Theorem mine_appends_block (n n' : Node) (fuel : nat) (uuid : string) (now : N) :
  mine n fuel uuid now = Some n' ->
  exists lb pf,
    last_block (chain n) = Some lb /\
    valid_proof (proof lb) pf = true /\
    (forall q, (q < pf)%N -> valid_proof (proof lb) q = false) /\
    let bonus := transaction_new uuid "0" (PeerInfo.id (basic_info n)) 1 in
    let pool := if in_dec string_dec uuid (ledger_ids (chain n))
                then current_transactions (chain n)
                else current_transactions (chain n) ++ [bonus] in
    let b := mkBlock (N.of_nat (len (chain n))) now pf pool (get_hash lb) in
    chain n' = mkBlockchain [] (blocks (chain n) ++ [b]) /\
    basic_info n' = basic_info n /\ peers n' = peers n /\
    broadcasts n' = broadcasts n ++ [NewBlock (basic_info n) b].
Proof.
  intros H. apply mine_spec in H as (lb & pf & El & Ep & E).
  exists lb, pf. unfold proof_of_work in Ep. apply pow_from_least in Ep as (_ & Hv & Hmin).
  split; [exact El | split; [exact Hv | split; [intros q Hq; apply Hmin; lia|]]].
  cbv zeta in *. subst n'.
  replace (current_transactions (snd (add_new_transaction (chain n)
             (transaction_new uuid "0" (PeerInfo.id (basic_info n)) 1))))
    with (if in_dec string_dec uuid (ledger_ids (chain n))
          then current_transactions (chain n)
          else current_transactions (chain n) ++
                 [transaction_new uuid "0" (PeerInfo.id (basic_info n)) 1]).
  - simpl. auto.
  - destruct (in_dec string_dec uuid (ledger_ids (chain n))) as [Hin | Hin].
    + rewrite add_new_transaction_known by exact Hin. reflexivity.
    + rewrite add_new_transaction_fresh by exact Hin. reflexivity.
Qed.

Lemma mine_appends_block_witness :
  exists n', mine pow_node 1 "u1" 7 = Some n' /\ (len (chain pow_node) < len (chain n'))%nat.
Proof.
  destruct (mine pow_node 1 "u1" 7) as [n'|] eqn:E; [|vm_compute in E; discriminate E].
  exists n'. split; [reflexivity|].
  destruct (mine_appends_block _ _ _ _ _ E) as (lb & pf & _ & _ & _ & Ec & _).
  rewrite Ec. unfold len; simpl. rewrite ?List.length_app; simpl; lia.
Defined.

(** X8: [greet_and_add_peer] returns [true] exactly when the connection
    succeeds and the answer is an [Ack] from a peer that is neither the
    node itself nor already known; the chain is untouched, and on any
    [Ack] the acknowledging peer is broadcast as [NewPeer], even when it
    is not added. *)
Theorem greet_and_add_peer_outcome (n n' : Node) (connected : bool) (reply : option Response)
    (ok : bool) :
  greet_and_add_peer n connected reply = (ok, n') ->
  (ok = true <-> connected = true /\
     exists p, reply = Some (Ack p) /\ p <> basic_info n /\ ~ In p (peers n)) /\
  chain n' = chain n /\ basic_info n' = basic_info n /\
  (forall p, connected = true -> reply = Some (Ack p) ->
     broadcasts n' = broadcasts n ++ [NewPeer (basic_info n) p] /\
     peers n' = (if ok then p :: peers n else peers n)) /\
  ((connected = false \/ forall p, reply <> Some (Ack p)) -> n' = n).
Proof.
  unfold greet_and_add_peer, say_hello.
  destruct connected.
  2:{ intros H; injection H as <- <-. split; [split; [discriminate | intros [H _]; discriminate]|].
      split; [reflexivity | split; [reflexivity | split; [intros p Hf; discriminate Hf | auto]]]. }
  destruct reply as [[p | q bs] |].
  - set (m := async_broadcast_peer n p).
    destruct (add_peer_spec m p) as [[Hk E] | (Hm & Hn & E)]; rewrite E; intros H;
      injection H as <- <-.
    + split.
      * split; [discriminate|]. intros [_ (p' & Ep & Hp1 & Hp2)]. injection Ep as <-.
        simpl in Hk. destruct Hk as [Hk | Hk]; [congruence | contradiction].
      * split; [reflexivity | split; [reflexivity|]]. split.
        -- intros p' _ Ep. injection Ep as <-. auto.
        -- intros [H | H]; [discriminate | exfalso; exact (H p eq_refl)].
    + split.
      * split; [intros _; split; [reflexivity|] | reflexivity].
        exists p. simpl in Hm, Hn. auto.
      * split; [reflexivity | split; [reflexivity|]]. split.
        -- intros p' _ Ep. injection Ep as <-. auto.
        -- intros [H | H]; [discriminate | exfalso; exact (H p eq_refl)].
  - intros H; injection H as <- <-. split.
    + split; [discriminate|]. intros [_ (p & Ep & _)]. discriminate.
    + split; [reflexivity | split; [reflexivity|]]. split; [intros p _ Ep; discriminate|]. auto.
  - intros H; injection H as <- <-. split.
    + split; [discriminate|]. intros [_ (p & Ep & _)]. discriminate.
    + split; [reflexivity | split; [reflexivity|]]. split; [intros p _ Ep; discriminate|]. auto.
Qed.

Lemma greet_and_add_peer_outcome_witness :
  greet_and_add_peer node0 true (Some (Ack peer1)) =
    (true, mkNode me new [peer1] [NewPeer me peer1]) /\
  peers (mkNode me new [peer1] [NewPeer me peer1]) = peer1 :: peers node0.
Proof.
  assert (H : greet_and_add_peer node0 true (Some (Ack peer1)) =
    (true, mkNode me new [peer1] [NewPeer me peer1])) by (vm_compute; reflexivity).
  split; [exact H|].
  exact (proj2 (proj1 (proj2 (proj2 (proj2 (greet_and_add_peer_outcome _ _ _ _ _ H)))) peer1
                  eq_refl eq_refl)).
Defined.

(** X9: the amount parser of the command line reads back every [i64]
    as the ledger prints it. *)
Theorem parse_i64_reads_printed (z : Z) :
  (i64_min <= z <= i64_max)%Z -> parse_i64 (Json.i64 z) = Some z.
Proof. apply parse_i64_print. Qed.

Lemma parse_i64_reads_printed_witness :
  parse_i64 (Json.i64 (-9223372036854775808)) = Some (-9223372036854775808)%Z.
Proof.
  apply parse_i64_reads_printed. unfold i64_min, i64_max. lia.
Defined.

(** X10: the amount parser reads a word of decimal digits, with no sign,
    a [+] or a [-] in front, as exactly the value it denotes when that
    value is in the [i64] range, and rejects it ([None]) when the value
    overflows: the parser never wraps around. *)
Theorem parse_i64_digits (d : string) :
  all_digits d = true -> d <> EmptyString ->
  let v := Z.of_N (dec_val_from 0 d) in
  parse_i64 d = (if (v <=? i64_max)%Z then Some v else None) /\
  parse_i64 (String "+" d) = (if (v <=? i64_max)%Z then Some v else None) /\
  parse_i64 (String "-" d) = (if (i64_min <=? - v)%Z then Some (- v)%Z else None).
Proof.
  intros Hd Hne v. destruct d as [| c t]; [contradiction|].
  pose proof (parse_pos_value _ Hd) as Hp. pose proof (parse_neg_value _ Hd) as Hn.
  split; [|split].
  - unfold parse_i64. assert (Hc : is_digit c = true) by (cbn in Hd; now apply andb_true_iff in Hd).
    destruct (digit_not_sign c Hc) as [-> ->]. exact Hp.
  - exact Hp.
  - exact Hn.
Qed.

Lemma parse_i64_digits_witness :
  parse_i64 "9223372036854775808" = None /\
  parse_i64 "+9223372036854775808" = None /\
  parse_i64 "-9223372036854775808" = Some (-9223372036854775808)%Z.
Proof.
  exact (parse_i64_digits "9223372036854775808" eq_refl ltac:(discriminate)).
Defined.

(** X11: a command line yields [NewTrans sender receiver amount] exactly
    when its first word is [new_trans], followed by the sender, the
    receiver and an amount word that parses to [amount], which is then in
    the [i64] range; after [new_trans] and three words the outcome depends
    only on the amount word, whatever words follow it. *)
Theorem handle_input_line_new_trans (args : list string) (s r amt : string)
    (rest : list string) (a : Z) :
  handle_input_line ("new_trans"%string :: s :: r :: amt :: rest) =
    match parse_i64 amt with
    | Some num => LSend (NewTrans s r num)
    | None => LError "illegal amount!"
    end /\
  (handle_input_line args = LSend (NewTrans s r a) ->
   (i64_min <= a <= i64_max)%Z /\
   exists amt' rest', args = "new_trans"%string :: s :: r :: amt' :: rest' /\
                      parse_i64 amt' = Some a).
Proof.
  split; [reflexivity|].
  unfold handle_input_line. destruct args as [| c args]; [discriminate|].
  destruct (String.eqb_spec c "new_trans") as [-> | Hc].
  - destruct args as [| s' [| r' [| amt' rest']]]; try discriminate.
    destruct (parse_i64 amt') as [a'|] eqn:Ep; [|discriminate].
    intros H; injection H as <- <- <-. split; [exact (parse_i64_range _ _ Ep)|].
    exists amt', rest'. auto.
  - repeat match goal with
    | |- context [String.eqb ?x ?y] => destruct (String.eqb x y)
    | |- context [match args with _ => _ end] => destruct args as [| ? ?]
    end; discriminate.
Qed.

Lemma handle_input_line_new_trans_witness :
  handle_input_line ["new_trans"%string; "alice"%string; "bob"%string; "-12"%string; "x"%string] =
    LSend (NewTrans "alice" "bob" (-12)) /\
  handle_input_line ["new_trans"%string; "alice"%string; "bob"%string; "12e"%string] =
    LError "illegal amount!".
Proof.
  split.
  - exact (proj1 (handle_input_line_new_trans [] "alice" "bob" "-12" ["x"%string] 0)).
  - exact (proj1 (handle_input_line_new_trans [] "alice" "bob" "12e" [] 0)).
Defined.

(** X12: the JSON text [get_hash] hashes is injective on blocks whose
    numbers fit their Rust types: two different blocks are never
    serialised to the same text. *)
Theorem block_json_injective (a b : Block) :
  block_wf a -> block_wf b -> Json.block a = Json.block b -> a = b.
Proof. apply block_json_inj. Qed.

Lemma block_wf_next_block : block_wf next_block.
Proof.
  unfold block_wf; simpl. split; [lia | split; [lia | split; [lia | constructor]]].
Qed.

Lemma block_json_injective_witness : next_block = next_block.
Proof.
  exact (block_json_injective next_block next_block block_wf_next_block block_wf_next_block
           eq_refl).
Defined.

(** X13: [valid_proof] hashes the two numbers written next to each
    other with no separator, so moving the last digit of the previous
    proof to the front of the new proof does not change the verdict. *)
Theorem valid_proof_digit_shift (a d b : N) :
  (1 <= a)%N -> (1 <= d <= 9)%N -> (10 * a + d < dec_bound)%N ->
  (d * 10 ^ N.of_nat (String.length (to_dec b)) + b < dec_bound)%N ->
  valid_proof (10 * a + d) b = valid_proof a (d * 10 ^ N.of_nat (String.length (to_dec b)) + b).
Proof.
  intros Ha Hd Hb1 Hb2. unfold valid_proof. f_equal. f_equal. f_equal.
  rewrite (to_dec_prepend d b Hd Hb2).
  rewrite (to_dec_step (10 * a + d)) by lia.
  replace ((10 * a + d) / 10)%N with a.
  2:{ apply (N.div_unique _ _ _ d); lia. }
  replace ((10 * a + d) mod 10)%N with d.
  2:{ apply (N.mod_unique _ _ a); lia. }
  rewrite sapp_assoc. reflexivity.
Qed.

Lemma valid_proof_digit_shift_witness :
  valid_proof 35293 35089 = valid_proof 3529 335089.
Proof.
  exact (valid_proof_digit_shift 3529 3 35089 ltac:(lia) ltac:(lia)
           ltac:(vm_compute; reflexivity) ltac:(vm_compute; reflexivity)).
Defined.
